(** * cpp_coroutine_test: call/return protocol of the coroutine tasks

    A shallow embedding of the C++20 coroutine programs of the repository:

    - [simple-task.cc], first program: [Promise<int, RepeatAwaiter>], [Task],
      [work()];
    - [simple-task.cc], second program: [PreviousAwaiter], [Promise], [Task],
      [WorldTask::CalleeAwaiter], [world()], [hello()];
    - the recursive program: [PreviousAwaiter], [CalleeAwaiter], [Promise],
      [Task], [factorial()];
    - the loop program: [PreviousAwaiter], [Promise<T>], [Task<T>::Awaiter],
      [Loop].

    Coroutine frames live in a heap indexed by address.  A coroutine body is
    a resumption tree; [resume] is [std::coroutine_handle<>::resume()], with
    symmetric transfer written as a loop over the handle that an
    [await_suspend] returns.  What the programs print is left out, but for
    the line that [await_suspend] of [PreviousAwaiter] and of
    [RepeatAwaiter] prints, which tells the branch taken. *)

From Stdlib Require Import ZArith Lia.
From stdpp Require Import gmap list strings sorting.

(** ** Machine integers: [int] is a 32-bit signed integer *)

Module Int.
Local Open Scope Z_scope.

Definition min_signed : Z := - 2 ^ 31.
Definition max_signed : Z := 2 ^ 31 - 1.

Definition in_range (z : Z) : Prop := min_signed <= z <= max_signed.

(** Reduction of a mathematical integer to the 32-bit two's complement
    value with the same low bits. *)
Definition wrap (z : Z) : Z := (z + 2 ^ 31) mod 2 ^ 32 - 2 ^ 31.

Definition sub (a b : Z) : Z := wrap (a - b).
Definition mul (a b : Z) : Z := wrap (a * b).
End Int.

(** ** Coroutine handles *)

(** A [std::coroutine_handle<>] is null, the handle of
    [std::noop_coroutine()], or the address of a coroutine frame. *)
Inductive coroutine_handle : Type :=
| nullptr
| noop_coroutine
| frame_at (a : nat).

(** [explicit operator bool]: the handle is not null. *)
Definition handle_bool (h : coroutine_handle) : bool :=
  match h with
  | nullptr => false
  | _ => true
  end.

(** An exception object is identified by its message. *)
Definition exn : Type := string.

(** The awaiters a task can be awaited through:
    [CalleeAwaiter] of the recursive program, [WorldTask::CalleeAwaiter] of
    the hello/world program, [Task<T>::Awaiter] of the loop program. *)
Inductive awaiter_kind : Type :=
| CalleeAwaiter
| WorldTask_CalleeAwaiter
| Task_Awaiter.

(** ** Coroutine bodies *)

(** The statements of a coroutine body that touch the protocol; the
    continuation of a statement is the rest of the body.

    - [co_return v] is [co_return v;]
    - [co_yield v k] is [co_yield v;] followed by [k]
    - [throw e] is an exception leaving the body
    - [spawn_task callee k] is [Task t = f(...);] where [callee] is the body
      of [f(...)]: a frame is allocated, suspended at its initial suspend
      point, and the local [t] holds its handle
    - [co_await aw task k] is [int r = co_await t;] through the awaiter
      [aw], followed by [k r]. *)
Inductive body : Type :=
| co_return (v : Z)
| co_yield (v : Z) (k : body)
| throw (e : exn)
| spawn_task (callee : body) (k : coroutine_handle -> body)
| co_await (aw : awaiter_kind) (task : coroutine_handle) (k : Z -> body).

(** Where a frame is suspended (or that it is executing). *)
Inductive resume_point : Type :=
| at_initial_suspend (b : body)
| at_co_yield (k : body)
| at_co_await (aw : awaiter_kind) (callee : coroutine_handle) (k : Z -> body)
| running
| at_final_suspend.

(** The frame is suspended at its final suspend point. *)
Definition is_final (p : resume_point) : bool :=
  match p with
  | at_final_suspend => true
  | _ => false
  end.

(** A coroutine frame: the suspension state, the promise object
    ([_value], [exception], [previous]) and the [Task] objects that are
    locals of the body (they are destroyed with the scope of the body). *)
Record frame : Type := Frame {
  point : resume_point;
  _value : option Z;
  exception : option exn;
  previous : coroutine_handle;
  locals : list coroutine_handle
}.

(** The free store: live frames by address and the next fresh address. *)
Record heap : Type := Heap {
  frames : gmap nat frame;
  next_address : nat
}.

(** No frame has been created yet. *)
Definition empty_heap : heap := Heap ∅ 0.

(** Assignments to the frame at address [a] (no effect when no frame is
    live there). *)
Definition update_frame (a : nat) (f : frame -> frame) (st : heap) : heap :=
  Heap (alter f a (frames st)) (next_address st).

Definition set_point (a : nat) (p : resume_point) : heap -> heap :=
  update_frame a (fun fr => Frame p (_value fr) (exception fr) (previous fr) (locals fr)).

Definition set_value (a : nat) (v : option Z) : heap -> heap :=
  update_frame a (fun fr => Frame (point fr) v (exception fr) (previous fr) (locals fr)).

Definition set_exception (a : nat) (e : option exn) : heap -> heap :=
  update_frame a (fun fr => Frame (point fr) (_value fr) e (previous fr) (locals fr)).

Definition set_previous (a : nat) (h : coroutine_handle) : heap -> heap :=
  update_frame a (fun fr => Frame (point fr) (_value fr) (exception fr) h (locals fr)).

Definition set_locals (a : nat) (l : list coroutine_handle) : heap -> heap :=
  update_frame a (fun fr => Frame (point fr) (_value fr) (exception fr) (previous fr) l).

(** [coroutine.done()]: the frame is suspended at its final suspend point.
    The no-op coroutine is never done.  [None] is undefined behaviour: a
    null handle, or a handle whose frame was destroyed. *)
Definition handle_done (st : heap) (h : coroutine_handle) : option bool :=
  match h with
  | nullptr => None
  | noop_coroutine => Some false
  | frame_at a => fr ← frames st !! a; Some (is_final (point fr))
  end.

(** ** Promise types *)

Inductive yield_awaiter : Type := suspend_always | RepeatAwaiter.
Inductive final_awaiter : Type := final_suspend_always | PreviousAwaiter.
Inductive exception_policy : Type := rethrow | store_exception.

(** What distinguishes the promise types of the repository:
    the awaiter returned by [yield_value], the awaiter returned by
    [final_suspend], and the body of [unhandled_exception]. *)
Record promise_type : Type := PromiseType {
  yield_value_awaiter : yield_awaiter;
  final_suspend_awaiter : final_awaiter;
  unhandled_exception : exception_policy
}.

(** [Promise<int, RepeatAwaiter>], the [promise_type] of [Task] in the first
    program of simple-task.cc. *)
Definition Promise_RepeatAwaiter : promise_type :=
  PromiseType RepeatAwaiter final_suspend_always rethrow.

(** [Promise<int>], with the default [Awaiter = std::suspend_always]. *)
Definition Promise_suspend_always : promise_type :=
  PromiseType suspend_always final_suspend_always rethrow.

(** [Promise] of the hello/world program and of the recursive program:
    [yield_value] returns [std::suspend_always], [final_suspend] returns
    [PreviousAwaiter{previous}], [unhandled_exception] is [throw;]. *)
Definition Promise : promise_type :=
  PromiseType suspend_always PreviousAwaiter rethrow.

(** [Promise<T>] of the loop program: [final_suspend] returns
    [PreviousAwaiter{previous}], [unhandled_exception] stores
    [std::current_exception()].  It has no [yield_value]. *)
Definition Promise_T : promise_type :=
  PromiseType suspend_always PreviousAwaiter store_exception.

(** ** Results *)

(** Evaluation of an expression that can throw or be undefined. *)
Inductive evaluation (A : Type) : Type :=
| normal (a : A)
| throws (e : exn)
| undefined_behaviour.
Arguments normal {A} a.
Arguments throws {A} e.
Arguments undefined_behaviour {A}.

(** How one run of a frame, from a resume to the next suspension, ends. *)
Inductive segment : Type :=
| seg_suspended (st : heap)
| seg_transfer (h : coroutine_handle) (st : heap)
| seg_raised (e : exn) (st : heap)
| seg_terminate
| seg_undefined
| seg_out_of_fuel.

(** How a call of [resume()] ends. *)
Inductive outcome : Type :=
| Returned (st : heap)
| Raised (e : exn) (st : heap)
| Terminated
| Undefined
| OutOfFuel.

(** ** Awaiters *)

(** [PreviousAwaiter::await_suspend]: the printed line and the handle to
    transfer to.  [previous.done()] is evaluated only when [previous] is not
    null. *)
Definition PreviousAwaiter_await_suspend (st : heap) (previous : coroutine_handle)
  : option (string * coroutine_handle) :=
  if handle_bool previous then
    d ← handle_done st previous;
    if negb d then
      Some ("- [PreviousAwaiter] Climbing up: resuming previous coroutine."%string, previous)
    else
      Some ("- No previous coroutine to resume."%string, noop_coroutine)
  else
    Some ("- No previous coroutine to resume."%string, noop_coroutine).

(** [RepeatAwaiter::await_suspend]. *)
Definition RepeatAwaiter_await_suspend (st : heap) (coroutine : coroutine_handle)
  : option (string * coroutine_handle) :=
  d ← handle_done st coroutine;
  if negb d then
    Some ("- In await_suspend, resuming coroutine."%string, coroutine)
  else
    Some ("- Coroutine is done, not resuming."%string, noop_coroutine).

(** [await_ready] of the three awaiters. *)
Definition await_ready (aw : awaiter_kind) (st : heap) (callee : coroutine_handle) : option bool :=
  match aw with
  | CalleeAwaiter => Some false
  | Task_Awaiter => Some false
  | WorldTask_CalleeAwaiter =>
      if handle_bool callee then handle_done st callee else Some false
  end.

(** [callee.promise().previous = caller; return callee;], the body shared by
    [CalleeAwaiter::await_suspend] and [Task<T>::Awaiter::await_suspend].
    [callee.promise()] needs a live frame. *)
Definition CalleeAwaiter_await_suspend (callee awaiting_coroutine : coroutine_handle) (st : heap)
  : option (coroutine_handle * heap) :=
  match callee with
  | frame_at c =>
      _ ← frames st !! c;
      Some (callee, set_previous c awaiting_coroutine st)
  | _ => None
  end.

(** [Promise::get_value] / [Promise::value]. *)
Definition Promise_get_value (fr : frame) : option Z := _value fr.

(** [std::optional<int>::value_or]. *)
Definition value_or (o : option Z) (d : Z) : Z :=
  match o with
  | Some v => v
  | None => d
  end.

(** [CalleeAwaiter::await_resume] (both programs):
    [auto val = callee.promise().get_value(); return val.value_or(0);] *)
Definition CalleeAwaiter_await_resume (st : heap) (callee : coroutine_handle) : option Z :=
  match callee with
  | frame_at c =>
      fr ← frames st !! c;
      Some (value_or (Promise_get_value fr) 0)
  | _ => None
  end.

(** [Promise<T>::result]: rethrows a stored exception, otherwise returns the
    optional value. *)
Definition Promise_result (fr : frame) : evaluation (option Z) :=
  match exception fr with
  | Some e => throws e
  | None => normal (_value fr)
  end.

(** [Task<T>::Awaiter::await_resume] for a non-void [T]:
    [return *(coroutine.promise().result());] *)
Definition Task_Awaiter_await_resume (st : heap) (coroutine : coroutine_handle) : evaluation Z :=
  match coroutine with
  | frame_at c =>
      match frames st !! c with
      | Some fr =>
          match Promise_result fr with
          | normal (Some v) => normal v
          | normal None => undefined_behaviour
          | throws e => throws e
          | undefined_behaviour => undefined_behaviour
          end
      | None => undefined_behaviour
      end
  | _ => undefined_behaviour
  end.

(** [await_resume] of the awaiter [aw]; [WorldTask::CalleeAwaiter] has the
    body of [CalleeAwaiter::await_resume]. *)
Definition await_resume (aw : awaiter_kind) (st : heap) (callee : coroutine_handle)
  : evaluation Z :=
  match aw with
  | CalleeAwaiter | WorldTask_CalleeAwaiter =>
      match CalleeAwaiter_await_resume st callee with
      | Some v => normal v
      | None => undefined_behaviour
      end
  | Task_Awaiter => Task_Awaiter_await_resume st callee
  end.

(** ** Frame creation and destruction *)

(** A frame as the coroutine machinery creates it: suspended at the initial
    suspend point ([initial_suspend] returns [std::suspend_always] in every
    promise type), [_value] empty, no exception, and [previous] holding its
    default member initialiser [std::noop_coroutine()]. *)
Definition new_frame (b : body) : frame :=
  Frame (at_initial_suspend b) None None noop_coroutine [].

(** Calling a coroutine function with body [b]: the handle of the new frame
    (what [get_return_object] returns) and the heap with that frame. *)
Definition create (b : body) (st : heap) : coroutine_handle * heap :=
  let a := next_address st in
  (frame_at a, Heap (<[a := new_frame b]> (frames st)) (S a)).

(** [h.destroy()], given what destroying does to a frame address.
    Destroying the no-op coroutine has no effect; [destroy()] on a null
    handle is undefined. *)
Definition handle_destroy (destroy : nat -> heap -> option heap) (h : coroutine_handle)
    (st : heap) : option heap :=
  match h with
  | frame_at a => destroy a st
  | noop_coroutine => Some st
  | nullptr => None
  end.

(** [~Task()]: [if (coroutine) coroutine.destroy();]. *)
Definition Task_dtor (destroy : nat -> heap -> option heap) (coroutine : coroutine_handle)
    (st : heap) : option heap :=
  if handle_bool coroutine then handle_destroy destroy coroutine st else Some st.

(** Runs the destructors of a list of [Task] locals, last declared first. *)
Definition destroy_tasks (destroy : nat -> heap -> option heap) (l : list coroutine_handle)
    (st : heap) : option heap :=
  foldr (fun h acc => st' ← acc; Task_dtor destroy h st') (Some st) l.

(** [coroutine_handle::destroy()]: the locals of the suspended body are
    destroyed, then the frame is freed.  Destroying a frame that is not live
    (a second release) or that is executing is undefined.  [depth] bounds
    the nesting of frames owned by frames. *)
Fixpoint destroy_frame (depth : nat) (a : nat) (st : heap) : option heap :=
  match depth with
  | 0 => None
  | S depth' =>
      fr ← frames st !! a;
      match point fr with
      | running => None
      | _ =>
          st' ← destroy_tasks (destroy_frame depth') (locals fr) st;
          Some (Heap (delete a (frames st')) (next_address st'))
      end
  end.

(** [coroutine.destroy()] on a heap: no chain of owners is longer than the
    number of live frames. *)
Definition coroutine_destroy (a : nat) (st : heap) : option heap :=
  destroy_frame (S (size (frames st))) a st.

(** The [Task] locals of the body of frame [a] go out of scope. *)
Definition destroy_locals (a : nat) (st : heap) : option heap :=
  fr ← frames st !! a;
  destroy_tasks coroutine_destroy (locals fr) (set_locals a [] st).

(** ** Promise member functions *)

(** [Promise::yield_value]: [_value = value;] (the awaiter it returns is
    [yield_value_awaiter]). *)
Definition Promise_yield_value (a : nat) (value : Z) (st : heap) : heap :=
  set_value a (Some value) st.

(** [Promise::return_value]: [_value = value;]
    ([value = val;] in [Promise<T>]). *)
Definition Promise_return_value (a : nat) (value : Z) (st : heap) : heap :=
  set_value a (Some value) st.

(** [Task::value()]: [coroutine.promise().get_value()]. *)
Definition Task_value (st : heap) (coroutine : coroutine_handle) : option Z :=
  match coroutine with
  | frame_at a => fr ← frames st !! a; Promise_get_value fr
  | _ => None
  end.

(** [task.coroutine.done()] for a handle known to be live. *)
Definition Task_done (st : heap) (coroutine : coroutine_handle) : bool :=
  match handle_done st coroutine with
  | Some d => d
  | None => false
  end.

(** ** Execution *)

Section Exec.
(** The promise type of the program. *)
Variable P : promise_type.
(** [coroutine_handle::resume()] as called from inside an awaiter. *)
Variable nested_resume : coroutine_handle -> heap -> outcome.

(** The final suspend point of frame [a]: the coroutine is suspended
    there ([done()] becomes true), then [final_suspend()]'s awaiter
    decides who runs next. *)
Definition final_suspend (a : nat) (st : heap) : segment :=
  let st1 := set_point a at_final_suspend st in
  match final_suspend_awaiter P with
  | final_suspend_always => seg_suspended st1
  | PreviousAwaiter =>
      match frames st1 !! a with
      | Some fr =>
          match PreviousAwaiter_await_suspend st1 (previous fr) with
          | Some (_, h) => seg_transfer h st1
          | None => seg_undefined
          end
      | None => seg_undefined
      end
  end.

(** An exception [e] leaves the body of frame [a]: the locals are
    unwound and [promise.unhandled_exception()] runs.  With [throw;] the
    exception goes on to whoever resumed the coroutine, and the coroutine
    counts as suspended at its final suspend point; with
    [exception = std::current_exception();] the body falls through to the
    final suspend point. *)
Definition unhandled (a : nat) (e : exn) (st : heap) : segment :=
  match destroy_locals a st with
  | Some st1 =>
      match unhandled_exception P with
      | rethrow => seg_raised e (set_point a at_final_suspend st1)
      | store_exception => final_suspend a (set_exception a (Some e) st1)
      end
  | None => seg_undefined
  end.

(** [while (!callee.done()) { callee.resume(); }] inside the [noexcept]
    [WorldTask::CalleeAwaiter::await_suspend]. *)
Fixpoint drive (bound : nat) (callee : coroutine_handle) (st : heap) : outcome :=
  match handle_done st callee with
  | None => Undefined
  | Some true => Returned st
  | Some false =>
      match bound with
      | 0 => OutOfFuel
      | S bound' =>
          match nested_resume callee st with
          | Returned st' => drive bound' callee st'
          | Raised _ _ => Terminated
          | o => o
          end
      end
  end.

(** The bound on the turns of that loop. *)
Variable bound : nat.

(** [WorldTask::CalleeAwaiter::await_suspend]:
    [callee.promise().previous = awaiting_coroutine;
     while (!callee.done()) { callee.resume(); }
     return std::noop_coroutine();]. *)
Definition WorldTask_CalleeAwaiter_await_suspend
    (callee awaiting_coroutine : coroutine_handle) (st : heap) : segment :=
  match callee with
  | frame_at c =>
      match frames st !! c with
      | Some _ =>
          match drive bound callee (set_previous c awaiting_coroutine st) with
          | Returned st' => seg_transfer noop_coroutine st'
          | Raised _ _ => seg_terminate
          | Terminated => seg_terminate
          | Undefined => seg_undefined
          | OutOfFuel => seg_out_of_fuel
          end
      | None => seg_undefined
      end
  | _ => seg_undefined
  end.

(** [await_suspend] of the awaiter [aw], called with the handle of the
    (already suspended) awaiting coroutine. *)
Definition await_suspend (aw : awaiter_kind) (callee awaiting_coroutine : coroutine_handle)
    (st : heap) : segment :=
  match aw with
  | CalleeAwaiter | Task_Awaiter =>
      match CalleeAwaiter_await_suspend callee awaiting_coroutine st with
      | Some (h, st') => seg_transfer h st'
      | None => seg_undefined
      end
  | WorldTask_CalleeAwaiter =>
      WorldTask_CalleeAwaiter_await_suspend callee awaiting_coroutine st
  end.

(** Runs the body [b] of frame [a] up to its next suspension. *)
Fixpoint exec (a : nat) (b : body) (st : heap) : segment :=
  match b with
  | co_return v =>
      match destroy_locals a (Promise_return_value a v st) with
      | Some st' => final_suspend a st'
      | None => seg_undefined
      end
  | co_yield v k =>
      let st1 := set_point a (at_co_yield k) (Promise_yield_value a v st) in
      match yield_value_awaiter P with
      | suspend_always => seg_suspended st1
      | RepeatAwaiter =>
          match RepeatAwaiter_await_suspend st1 (frame_at a) with
          | Some (_, h) => seg_transfer h st1
          | None => seg_undefined
          end
      end
  | throw e => unhandled a e st
  | spawn_task callee k =>
      match frames st !! a with
      | Some fr =>
          let '(t, st1) := create callee st in
          exec a (k t) (set_locals a (locals fr ++ [t]) st1)
      | None => seg_undefined
      end
  | co_await aw task k =>
      match await_ready aw st task with
      | Some true =>
          match await_resume aw st task with
          | normal v => exec a (k v) st
          | throws e => unhandled a e st
          | undefined_behaviour => seg_undefined
          end
      | Some false =>
          await_suspend aw task (frame_at a) (set_point a (at_co_await aw task k) st)
      | None => seg_undefined
      end
  end.

(** Resumes frame [a], whose content is [fr], at the point where it is
    suspended. *)
Definition resume_frame (a : nat) (fr : frame) (st : heap) : segment :=
  let st1 := set_point a running st in
  match point fr with
  | at_initial_suspend b => exec a b st1
  | at_co_yield k => exec a k st1
  | at_co_await aw callee k =>
      match await_resume aw st1 callee with
      | normal v => exec a (k v) st1
      | throws e => unhandled a e st1
      | undefined_behaviour => seg_undefined
      end
  | running => seg_undefined
  | at_final_suspend => seg_undefined
  end.
End Exec.

(** [coroutine.resume()]: runs the frame, and every frame that control is
    transferred to symmetrically, until a frame suspends without naming a
    successor or names the no-op coroutine.  Resuming the no-op coroutine
    does nothing; resuming a null handle, a destroyed frame, a frame at its
    final suspend point or an executing frame is undefined. *)
Fixpoint resume (P : promise_type) (fuel : nat) (h : coroutine_handle) (st : heap) : outcome :=
  match h with
  | nullptr => Undefined
  | noop_coroutine => Returned st
  | frame_at a =>
      match fuel with
      | 0 => OutOfFuel
      | S fuel' =>
          match frames st !! a with
          | Some fr =>
              match resume_frame P (resume P fuel') fuel' a fr st with
              | seg_suspended st' => Returned st'
              | seg_transfer h' st' => resume P fuel' h' st'
              | seg_raised e st' => Raised e st'
              | seg_terminate => Terminated
              | seg_undefined => Undefined
              | seg_out_of_fuel => OutOfFuel
              end
          | None => Undefined
          end
      end
  end.

(** ** The coroutines of the repository *)

(** [work()] of simple-task.cc: [co_yield 1; co_yield 2; co_return 3;],
    and its shape for arbitrary values. *)
Definition yield_yield_return (v1 v2 v3 : Z) : body :=
  co_yield v1 (co_yield v2 (co_return v3)).

(** [work()]. *)
Definition work : body := yield_yield_return 1 2 3.

(** [world()]: [co_yield 1; co_yield 2; co_return 42;]. *)
Definition world : body := yield_yield_return 1 2 42.

(** [hello()]:
    [auto world_task = world(); int val1 = co_await world_task;
     co_yield val1; co_yield 100; co_return 200;]. *)
Definition hello : body :=
  spawn_task world (fun world_task =>
    co_await WorldTask_CalleeAwaiter world_task (fun val1 =>
      co_yield val1 (co_yield 100 (co_return 200)))).

(** [factorial(n)]:
    [if (n <= 1) co_return 1;
     Task sub_task = factorial(n - 1); int sub_result = co_await sub_task;
     int result = n * sub_result; co_return result;].
    [depth] bounds the unfolding of the recursive call; [factorial] starts
    it at [n], which the unfolding never exhausts. *)
Fixpoint factorial_body (depth : nat) (n : Z) : body :=
  if (n <=? 1)%Z then co_return 1
  else
    match depth with
    | 0 => co_return 1
    | S depth' =>
        spawn_task (factorial_body depth' (Int.sub n 1)) (fun sub_task =>
          co_await CalleeAwaiter sub_task (fun sub_result =>
            co_return (Int.mul n sub_result)))
    end.

(** [factorial(n)] for an [int n]. *)
Definition factorial (n : Z) : body := factorial_body (Z.to_nat n) n.

(** A caller that awaits, through [Task<T>::Awaiter], a callee whose body
    throws. *)
Definition awaits_thrower (e : exn) : body :=
  spawn_task (throw e) (fun t => co_await Task_Awaiter t co_return).

(** [Task task = f(...);] in [main]: the heap holds the one new frame, at
    address 0. *)
Definition main_task (b : body) : coroutine_handle * heap := create b empty_heap.

(** ** [Task] as the owner of a frame *)

(** How a class declares one of its copy and move members. *)
Inductive member_declaration : Type :=
| not_declared
| declared_deleted
| user_provided.

(** The copy and move members of a class, as its definition declares
    them. *)
Record class_members : Type := ClassMembers {
  copy_constructor : member_declaration;
  copy_assignment : member_declaration;
  move_constructor : member_declaration;
  move_assignment : member_declaration
}.

(** [Task] of the first program of simple-task.cc and of the recursive
    program with move support:
    [Task(const Task &) = delete; Task &operator=(const Task &) = delete;
     Task(Task &&other); Task &operator=(Task &&other);]. *)
Definition Task_members : class_members :=
  ClassMembers declared_deleted declared_deleted user_provided user_provided.

(** [Task] of the recursive program without move support
    ([Task& operator=(Task&& other) = delete;]) and [Task<T>] of the loop
    program ([Task &operator=(const Task &&) = delete;]): the only copy or
    move member declared is a deleted move assignment operator. *)
Definition Task_members_deleted_move_assignment : class_members :=
  ClassMembers not_declared not_declared not_declared declared_deleted.

(** The class definition declares the member (user-provided or deleted). *)
Definition is_declared (d : member_declaration) : bool :=
  match d with
  | not_declared => false
  | _ => true
  end.

(** A copy member that the class does not declare is declared implicitly,
    and is defined as deleted when the class declares a move constructor or
    a move assignment operator. *)
Definition can_copy_construct (c : class_members) : bool :=
  match copy_constructor c with
  | user_provided => true
  | declared_deleted => false
  | not_declared => negb (is_declared (move_constructor c) || is_declared (move_assignment c))
  end.

(** The same rule for the copy assignment operator. *)
Definition can_copy_assign (c : class_members) : bool :=
  match copy_assignment c with
  | user_provided => true
  | declared_deleted => false
  | not_declared => negb (is_declared (move_constructor c) || is_declared (move_assignment c))
  end.

(** [Task(Task &&other) : coroutine(other.coroutine) { other.coroutine = nullptr; }]
    on the [Task] objects, given by the [coroutine] member of each object:
    [this] is the address of the object under construction. *)
Definition Task_move_constructor (this other : nat) (tasks : gmap nat coroutine_handle)
  : option (gmap nat coroutine_handle) :=
  coroutine ← tasks !! other;
  Some (<[other := nullptr]> (<[this := coroutine]> tasks)).

(** [Task &operator=(Task &&other)]:
    [if (this != &other) { if (coroutine) coroutine.destroy();
       coroutine = other.coroutine; other.coroutine = nullptr; }]. *)
Definition Task_move_assignment (this other : nat) (tasks : gmap nat coroutine_handle) (st : heap)
  : option (gmap nat coroutine_handle * heap) :=
  if decide (this ≠ other) then
    coroutine ← tasks !! this;
    other_coroutine ← tasks !! other;
    st' ← Task_dtor coroutine_destroy coroutine st;
    Some (<[other := nullptr]> (<[this := other_coroutine]> tasks), st')
  else Some (tasks, st).

(** The end of the lifetime of the [Task] object at address [this]:
    [~Task()] runs and the object is gone. *)
Definition Task_destructor (this : nat) (tasks : gmap nat coroutine_handle) (st : heap)
  : option (gmap nat coroutine_handle * heap) :=
  coroutine ← tasks !! this;
  st' ← Task_dtor coroutine_destroy coroutine st;
  Some (delete this tasks, st').

(** ** The scheduler: [Loop] *)

(** *** [std::priority_queue] *)

(** [std::priority_queue<T, std::vector<T>, Compare>] keeps its elements in
    the vector [c], arranged as a binary heap by [std::push_heap] and
    [std::pop_heap]: [push(x)] is [c.push_back(x); std::push_heap(...)],
    [pop()] is [std::pop_heap(...); c.pop_back()], [top()] is [c.front()].
    The heap algorithms are those of libstdc++ ([bits/stl_heap.h]).  The
    vector is a list; the iterator range is [first = 0], [last = length c].
    Every index read or written lies inside the vector. *)
Section PriorityQueue.
Context {T : Type} `{Inhabited T}.
Variable comp : T -> T -> bool.

(** The loop of [std::__push_heap]:
    [while (holeIndex > topIndex && comp(first + parent, value))
       { *(first + holeIndex) = *(first + parent);
         holeIndex = parent; parent = (holeIndex - 1) / 2; }
     *(first + holeIndex) = value;]
    [holeIndex] decreases at every turn, so [holeIndex] turns are enough. *)
Fixpoint push_heap_loop (turns : nat) (c : list T) (holeIndex topIndex : nat) (value : T)
  : list T :=
  let parent := (holeIndex - 1) / 2 in
  match turns with
  | S turns' =>
      if (topIndex <? holeIndex) && comp (c !!! parent) value then
        push_heap_loop turns' (<[holeIndex := c !!! parent]> c) parent topIndex value
      else <[holeIndex := value]> c
  | 0 => <[holeIndex := value]> c
  end.

(** [std::__push_heap(first, holeIndex, topIndex, value, comp)]. *)
Definition __push_heap (c : list T) (holeIndex topIndex : nat) (value : T) : list T :=
  push_heap_loop holeIndex c holeIndex topIndex value.

(** [std::push_heap(first, last, comp)]:
    [value = *(last - 1); __push_heap(first, (last - first) - 1, 0, value)]. *)
Definition push_heap (c : list T) : list T :=
  __push_heap c (length c - 1) 0 (c !!! (length c - 1)).

(** The first loop of [std::__adjust_heap]:
    [while (secondChild < (len - 1) / 2)
       { secondChild = 2 * (secondChild + 1);
         if (comp(first + secondChild, first + (secondChild - 1))) secondChild--;
         *(first + holeIndex) = *(first + secondChild);
         holeIndex = secondChild; }]
    [secondChild] grows at every turn, so [len] turns are enough. *)
Fixpoint adjust_heap_loop (turns : nat) (c : list T) (holeIndex secondChild len : nat)
  : list T * nat * nat :=
  match turns with
  | S turns' =>
      if secondChild <? (len - 1) / 2 then
        let secondChild1 := 2 * (secondChild + 1) in
        let secondChild2 :=
          if comp (c !!! secondChild1) (c !!! (secondChild1 - 1))
          then secondChild1 - 1 else secondChild1 in
        adjust_heap_loop turns' (<[holeIndex := c !!! secondChild2]> c)
          secondChild2 secondChild2 len
      else (c, holeIndex, secondChild)
  | 0 => (c, holeIndex, secondChild)
  end.

(** [std::__adjust_heap(first, holeIndex, len, value, comp)], called with
    [len >= 1]: after the loop,
    [if ((len & 1) == 0 && secondChild == (len - 2) / 2)
       { secondChild = 2 * (secondChild + 1);
         *(first + holeIndex) = *(first + (secondChild - 1));
         holeIndex = secondChild - 1; }
     __push_heap(first, holeIndex, topIndex, value, comp);]. *)
Definition __adjust_heap (c : list T) (holeIndex len : nat) (value : T) : list T :=
  let topIndex := holeIndex in
  let '(c1, holeIndex1, secondChild1) := adjust_heap_loop len c holeIndex holeIndex len in
  if Nat.even len && (secondChild1 =? (len - 2) / 2) then
    let secondChild2 := 2 * (secondChild1 + 1) in
    __push_heap (<[holeIndex1 := c1 !!! (secondChild2 - 1)]> c1) (secondChild2 - 1)
      topIndex value
  else __push_heap c1 holeIndex1 topIndex value.

(** [std::pop_heap(first, last, comp)]:
    [if (last - first > 1)
       { --last; value = *last; *last = *first;
         __adjust_heap(first, 0, last - first, value, comp); }]. *)
Definition pop_heap (c : list T) : list T :=
  if 1 <? length c then
    let last := length c - 1 in
    __adjust_heap (<[last := c !!! 0]> c) 0 last (c !!! last)
  else c.

(** [priority_queue::push], [priority_queue::pop], [priority_queue::top]. *)
Definition priority_queue_push (x : T) (c : list T) : list T := push_heap (c ++ [x]).
Definition priority_queue_pop (c : list T) : list T := removelast (pop_heap c).
Definition priority_queue_top (c : list T) : T := c !!! 0.

(** [while (!q.empty()) { fire(q.top()); q.pop(); }]: the order in which
    the queue gives out its elements. *)
Fixpoint drain (turns : nat) (c : list T) : list T :=
  match turns with
  | S turns' =>
      match c with
      | [] => []
      | _ => priority_queue_top c :: drain turns' (priority_queue_pop c)
      end
  | 0 => []
  end.
End PriorityQueue.

(** *** [Loop] *)

(** [Loop::TimerEntry]; a [time_point] is its count of clock ticks. *)
Record TimerEntry : Type := {
  expire_time : Z;
  handle : coroutine_handle
}.

(** The value of a read outside the vector, which no read is. *)
#[global] Instance TimerEntry_inhabited : Inhabited TimerEntry :=
  populate {| expire_time := 0; handle := nullptr |}.

(** [TimerEntry::operator>]: [expire_time > other.expire_time]. *)
Definition TimerEntry_gt (this other : TimerEntry) : bool :=
  (expire_time other <? expire_time this)%Z.

(** [std::greater<>] on [TimerEntry]. *)
Definition greater (a b : TimerEntry) : bool := TimerEntry_gt a b.

(** [Loop]: the queue [ready_tasks] and the priority queue [timers]. *)
Record Loop : Type := {
  ready_tasks : list coroutine_handle;
  timers : list TimerEntry
}.

(** [Loop() = default]. *)
Definition Loop_default : Loop := {| ready_tasks := []; timers := [] |}.

(** [Loop::add_task]: [ready_tasks.push(handle)]. *)
Definition add_task (h : coroutine_handle) (l : Loop) : Loop :=
  {| ready_tasks := ready_tasks l ++ [h]; timers := timers l |}.

(** [Loop::add_timer]: [timers.push(TimerEntry{time, handle})]. *)
Definition add_timer (time : Z) (h : coroutine_handle) (l : Loop) : Loop :=
  {| ready_tasks := ready_tasks l;
     timers := priority_queue_push greater
                 {| expire_time := time; handle := h |} (timers l) |}.

(** Registers timers in the order of the list. *)
Definition add_timers (regs : list (Z * coroutine_handle)) (l : Loop) : Loop :=
  foldl (fun l r => add_timer (fst r) (snd r) l) l regs.

(** The entries of [timers] in the order in which they leave the queue:
    [top()] and [pop()] are the only way to take entries out of a
    [std::priority_queue], so this is the order in which timers can fire. *)
Definition fire_order (l : Loop) : list TimerEntry :=
  drain greater (length (timers l)) (timers l).

(** ** Notions used in the statements *)

(** A handle that can be asked [done()]: not a handle to a destroyed
    frame. *)
Definition valid_handle (st : heap) (h : coroutine_handle) : Prop :=
  match h with
  | frame_at c => is_Some (frames st !! c)
  | _ => True
  end.

(** A continuation is attached (the handle names a frame) and that frame is
    not complete. *)
Definition continuation_runnable (st : heap) (h : coroutine_handle) : bool :=
  match h with
  | frame_at c =>
      match frames st !! c with
      | Some fc => negb (is_final (point fc))
      | None => false
      end
  | _ => false
  end.

(** A call that neither lets an exception out nor ends in
    [std::terminate]. *)
Definition quiet (o : outcome) : Prop :=
  match o with
  | Raised _ _ | Terminated => False
  | _ => True
  end.

(** The same for one run of a frame. *)
Definition quiet_segment (s : segment) : Prop :=
  match s with
  | seg_raised _ _ | seg_terminate => False
  | _ => True
  end.

(** A suspended frame that owns no [Task]. *)
Definition plain_frame (fr : frame) : Prop :=
  point fr ≠ running ∧ locals fr = [].

(** The value held by [factorial(k + 1)] in [int] arithmetic. *)
Fixpoint factorial_value (k : nat) : Z :=
  match k with
  | 0 => 1%Z
  | S k' => Int.mul (Z.of_nat (S k)) (factorial_value k')
  end.

(** [k!] as a mathematical integer. *)
Fixpoint Zfact (k : nat) : Z :=
  match k with
  | 0 => 1%Z
  | S k' => (Z.of_nat k * Zfact k')%Z
  end.

(** The first [n] elements of [c] are a heap by [key]: no element is
    smaller than its parent. *)
Definition heap_upto {T : Type} `{Inhabited T} (key : T -> Z) (c : list T) (n : nat) : Prop :=
  ∀ i, 0 < i < n -> (key (c !!! ((i - 1) / 2)%nat) <= key (c !!! i))%Z.

(** The entries that a list of registrations asks for. *)
Definition entries (regs : list (Z * coroutine_handle)) : list TimerEntry :=
  (fun r => {| expire_time := fst r; handle := snd r |}) <$> regs.

(** ** States used as examples *)


(** The caller at address 0 waits in [co_await]; the callee at address 1 is
    complete and holds no value. *)
Definition callee_without_value : heap :=
  Heap (<[1 := Frame at_final_suspend None None (frame_at 0) []]>
        (<[0 := Frame (at_co_await CalleeAwaiter (frame_at 1) co_return) None None
                  noop_coroutine [frame_at 1]]> ∅)) 2.

(** The callee at address 1 already has the frame at address 0 as its
    continuation; a third frame at address 2 exists. *)
Definition already_attached : heap :=
  Heap (<[2 := new_frame (co_return 0)]>
        (<[1 := Frame (at_co_yield (co_return 1)) (Some 5%Z) None (frame_at 0) []]>
         (<[0 := Frame (at_co_await CalleeAwaiter (frame_at 1) co_return) None None
                   noop_coroutine [frame_at 1]]> ∅))) 3.

(** As [already_attached], with the callee at address 1 complete. *)
Definition already_complete : heap :=
  Heap (<[2 := new_frame (co_return 0)]>
        (<[1 := Frame at_final_suspend (Some 5%Z) None noop_coroutine []]>
         (<[0 := new_frame (co_return 0)]> ∅))) 3.

(** A coroutine at address 0 is about to await the task at address 1, whose
    frame is complete and holds 7. *)
Definition completed_callee : heap :=
  Heap (<[1 := Frame at_final_suspend (Some 7%Z) None noop_coroutine []]>
        (<[0 := Frame (at_initial_suspend (co_await CalleeAwaiter (frame_at 1) co_return))
                  None None noop_coroutine [frame_at 1]]> ∅)) 2.

(** The hello/world situation with [world()] complete before the await. *)
Definition completed_world : heap :=
  Heap (<[1 := Frame at_final_suspend (Some 42%Z) None noop_coroutine []]>
        (<[0 := Frame running None None noop_coroutine [frame_at 1]]> ∅)) 2.

(** A task whose body throws, created by [main]. *)
Definition throwing_task (e : exn) : coroutine_handle * heap := main_task (throw e).

(** [Task task = work();] at address 0 of the objects, its frame at address
    0 of the heap. *)
Definition one_task : gmap nat coroutine_handle := {[0 := frame_at 0]}.

(** ** Coroutines that yield, and the loop of [main] *)

(** A body that yields the values of [vs] in turn and then goes on as
    [last]: [co_yield v1; ...; co_yield vn; last]. *)
Fixpoint yields_then (vs : list Z) (last : body) : body :=
  match vs with
  | [] => last
  | v :: vs' => co_yield v (yields_then vs' last)
  end.

(** [co_yield v1; ...; co_yield vn; co_return r;], the shape of [work()]
    and of [world()]. *)
Definition yields (vs : list Z) (r : Z) : body := yields_then vs (co_return r).

(** [main] of the first program of simple-task.cc, from the task on:
    [while (!task.coroutine.done())
       { task.coroutine.resume(); if (auto val = task.value()) ... else ... }].
    The result is what the turns of the loop read from [task.value()], in
    order, and the heap at the end; [None] when a [resume()] does not
    return or [turns] is exceeded. *)
Fixpoint main_loop (P : promise_type) (fuel turns : nat) (task : coroutine_handle) (st : heap)
  : option (list (option Z) * heap) :=
  match handle_done st task with
  | Some true => Some ([], st)
  | Some false =>
      match turns with
      | S turns' =>
          match resume P fuel task st with
          | Returned st' =>
              '(vals, st'') ← main_loop P fuel turns' task st';
              Some (Task_value st' task :: vals, st'')
          | _ => None
          end
      | 0 => None
      end
  | None => None
  end.

(** A frame suspended just before the body [b]: at its initial suspend
    point, or in the [co_yield] that precedes [b]. *)
Definition suspended_before (b : body) (pt : resume_point) : Prop :=
  pt = at_initial_suspend b ∨ pt = at_co_yield b.

(** ** A frame that awaits another *)

(** The heap in which frame [a] awaits frame [c] through an awaiter: [c]
    has [a] as continuation and owns no [Task]. *)
Definition awaiting_heap (a c : nat) (fa : frame) (ptc : resume_point) (valc : option Z)
    (xc : option exn) (m : gmap nat frame) (n : nat) : heap :=
  Heap (<[c := Frame ptc valc xc (frame_at a) []]> (<[a := fa]> m)) n.

Definition drive_result (o : outcome) : segment :=
  match o with
  | Returned st' => seg_transfer noop_coroutine st'
  | Raised _ _ => seg_terminate
  | Terminated => seg_terminate
  | Undefined => seg_undefined
  | OutOfFuel => seg_out_of_fuel
  end.

(** ** Chains of awaits *)

(** A chain of [depth] coroutines, each of which creates the next one,
    awaits it through [Task<T>::Awaiter] and returns what the await gives:
    [Task<int> t = next(); co_return co_await Task<int>::Awaiter{t};].
    The innermost coroutine has the body [leaf]. *)
Fixpoint await_chain (depth : nat) (leaf : body) : body :=
  match depth with
  | 0 => leaf
  | S depth' =>
      spawn_task (await_chain depth' leaf) (fun t => co_await Task_Awaiter t co_return)
  end.

(** How a coroutine body ends: [co_return v] or an exception. *)
Definition leaf_of (res : Z + exn) : body :=
  match res with
  | inl v => co_return v
  | inr e => throw e
  end.

(** The promise of a frame that ended with [res]. *)
Definition value_after (res : Z + exn) (v0 : option Z) : option Z :=
  match res with
  | inl v => Some v
  | inr _ => v0
  end.

Definition exception_after (res : Z + exn) (x0 : option exn) : option exn :=
  match res with
  | inl _ => x0
  | inr e => Some e
  end.

(** ** Consistent frames *)

(** The promise of the frame holds something that [result()] can give: a
    value or a stored exception. *)
Definition result_ready (fr : frame) : Prop :=
  is_Some (_value fr) ∨ is_Some (exception fr).

(** A frame holds an exception only when it is complete, and a complete
    frame holds a value or an exception. *)
Definition frame_consistent (fr : frame) : Prop :=
  (is_Some (exception fr) -> is_final (point fr) = true) ∧
  (is_final (point fr) = true -> result_ready fr).

Definition heap_consistent (st : heap) : Prop :=
  ∀ a fr, frames st !! a = Some fr -> frame_consistent fr.

(** The frame at [a], if live, is not complete. *)
Definition not_final (a : nat) (st : heap) : Prop :=
  ∀ fr, frames st !! a = Some fr -> is_final (point fr) = false.

Definition segment_consistent (s : segment) : Prop :=
  match s with
  | seg_suspended st | seg_transfer _ st | seg_raised _ st => heap_consistent st
  | _ => True
  end.

Definition outcome_consistent (o : outcome) : Prop :=
  match o with
  | Returned st | Raised _ st => heap_consistent st
  | _ => True
  end.

(** ** Calls on a [Loop] *)

(** A call of [Loop::add_task] or of [Loop::add_timer]. *)
Inductive registration : Type :=
| register_task (h : coroutine_handle)
| register_timer (time : Z) (h : coroutine_handle).

Definition register (l : Loop) (r : registration) : Loop :=
  match r with
  | register_task h => add_task h l
  | register_timer time h => add_timer time h l
  end.

(** The calls of a list, in its order, on the loop [l]. *)
Definition register_all (rs : list registration) (l : Loop) : Loop := foldl register l rs.

(** The tasks and the timers that a list of calls registers. *)
Definition registered_tasks (rs : list registration) : list coroutine_handle :=
  omap (fun r => match r with register_task h => Some h | _ => None end) rs.

Definition registered_timers (rs : list registration) : list (Z * coroutine_handle) :=
  omap (fun r => match r with register_timer time h => Some (time, h) | _ => None end) rs.

(** A step on [timers]: [add_timer], or taking the entry that fires next
    ([top()] then [pop()]). *)
Inductive timer_step : Type :=
| step_add (time : Z) (h : coroutine_handle)
| step_pop.

(** Runs the steps on the loop; the entries taken out are collected in the
    order in which they leave.  [top()] and [pop()] on an empty queue are
    undefined. *)
Fixpoint timer_steps (steps : list timer_step) (l : Loop) (fired : list TimerEntry)
  : option (Loop * list TimerEntry) :=
  match steps with
  | [] => Some (l, fired)
  | step_add time h :: steps' => timer_steps steps' (add_timer time h l) fired
  | step_pop :: steps' =>
      match timers l with
      | [] => None
      | _ =>
          timer_steps steps'
            {| ready_tasks := ready_tasks l; timers := priority_queue_pop greater (timers l) |}
            (fired ++ [priority_queue_top (timers l)])
      end
  end.

(** The entries that the steps add. *)
Definition added (steps : list timer_step) : list TimerEntry :=
  omap (fun s => match s with
                 | step_add time h => Some {| expire_time := time; handle := h |}
                 | step_pop => None
                 end) steps.

(** ** Operations on [Task] objects *)

(** What a program does with [Task] objects: it move-constructs the object
    [this] from [other], move-assigns [other] to [this], or ends the
    lifetime of [this]. *)
Inductive Task_operation : Type :=
| move_construct (this other : nat)
| move_assign (this other : nat)
| end_of_lifetime (this : nat).

Definition Task_apply (op : Task_operation) (tasks : gmap nat coroutine_handle) (st : heap)
  : option (gmap nat coroutine_handle * heap) :=
  match op with
  | move_construct this other =>
      tasks' ← Task_move_constructor this other tasks; Some (tasks', st)
  | move_assign this other => Task_move_assignment this other tasks st
  | end_of_lifetime this => Task_destructor this tasks st
  end.

Fixpoint Task_run (ops : list Task_operation) (tasks : gmap nat coroutine_handle) (st : heap)
  : option (gmap nat coroutine_handle * heap) :=
  match ops with
  | [] => Some (tasks, st)
  | op :: ops' =>
      match Task_apply op tasks st with
      | Some (tasks', st') => Task_run ops' tasks' st'
      | None => None
      end
  end.

(** The operation names objects as the language allows: the object under
    construction does not exist yet, every other object named is alive. *)
Definition in_scope (op : Task_operation) (objects : gset nat) : Prop :=
  match op with
  | move_construct this other => (this ∉ objects) ∧ (other ∈ objects)
  | move_assign this other => (this ∈ objects) ∧ (other ∈ objects)
  | end_of_lifetime this => this ∈ objects
  end.

Definition objects_after (op : Task_operation) (objects : gset nat) : gset nat :=
  match op with
  | move_construct this _ => {[this]} ∪ objects
  | move_assign _ _ => objects
  | end_of_lifetime this => objects ∖ {[this]}
  end.

Fixpoint well_scoped (ops : list Task_operation) (objects : gset nat) : Prop :=
  match ops with
  | [] => True
  | op :: ops' => in_scope op objects ∧ well_scoped ops' (objects_after op objects)
  end.

(** Every frame held by a [Task] is live and suspended, owns no [Task]
    itself, and is held by no other [Task]. *)
Definition owns (tasks : gmap nat coroutine_handle) (st : heap) : Prop :=
  ∀ i a, tasks !! i = Some (frame_at a) ->
    (∃ fr, frames st !! a = Some fr ∧ plain_frame fr) ∧
    (∀ j, tasks !! j = Some (frame_at a) -> j = i).

(** * Properties *)

(** ** Heap lemmas *)

Lemma update_frame_insert (a : nat) (f : frame -> frame) (m : gmap nat frame) (n : nat)
    (fr : frame) :
  m !! a = Some fr ->
  update_frame a f (Heap m n) = Heap (<[a := f fr]> m) n.
Proof.
  intros Hl. unfold update_frame. simpl. f_equal.
  apply map_eq. intros i. destruct (decide (a = i)) as [->|Hne].
  - rewrite lookup_alter_eq, lookup_insert_eq, Hl. reflexivity.
  - rewrite lookup_alter_ne, lookup_insert_ne by done. reflexivity.
Qed.

Lemma lookup_update_frame_eq (a : nat) (f : frame -> frame) (st : heap) :
  frames (update_frame a f st) !! a = f <$> frames st !! a.
Proof. unfold update_frame. simpl. apply lookup_alter_eq. Qed.

Lemma lookup_update_frame_ne (a b : nat) (f : frame -> frame) (st : heap) :
  a ≠ b -> frames (update_frame a f st) !! b = frames st !! b.
Proof. intros. unfold update_frame. simpl. by apply lookup_alter_ne. Qed.

Lemma next_address_update_frame (a : nat) (f : frame -> frame) (st : heap) :
  next_address (update_frame a f st) = next_address st.
Proof. reflexivity. Qed.

Lemma PreviousAwaiter_await_suspend_target (st : heap) (previous : coroutine_handle) :
  valid_handle st previous ->
  snd <$> PreviousAwaiter_await_suspend st previous
  = Some (if continuation_runnable st previous then previous else noop_coroutine).
Proof.
  destruct previous as [| |c]; simpl; intros Hv; try reflexivity.
  destruct Hv as [fc Hfc].
  unfold PreviousAwaiter_await_suspend; simpl. rewrite Hfc. simpl.
  destruct (is_final (point fc)); reflexivity.
Qed.

Lemma final_suspend_PreviousAwaiter (P : promise_type) (a : nat) (st : heap) (fr : frame) :
  final_suspend_awaiter P = PreviousAwaiter ->
  frames st !! a = Some fr ->
  valid_handle st (previous fr) ->
  final_suspend P a st
  = seg_transfer
      (if continuation_runnable (set_point a at_final_suspend st) (previous fr)
       then previous fr else noop_coroutine)
      (set_point a at_final_suspend st).
Proof.
  intros HP Hl Hv. unfold final_suspend. rewrite HP.
  unfold set_point at 1. rewrite lookup_update_frame_eq, Hl. simpl.
  assert (Hv' : valid_handle (set_point a at_final_suspend st) (previous fr)).
  { destruct (previous fr) as [| |c]; unfold valid_handle in *; try done.
    unfold set_point. destruct (decide (a = c)) as [->|Hne].
    - rewrite lookup_update_frame_eq, Hl. by eexists.
    - by rewrite lookup_update_frame_ne. }
  pose proof (PreviousAwaiter_await_suspend_target _ _ Hv') as Ht.
  destruct (PreviousAwaiter_await_suspend _ _) as [[msg h]|]; simpl in Ht; [|discriminate].
  by injection Ht as ->.
Qed.

Lemma resume_noop (P : promise_type) (fuel : nat) (st : heap) :
  resume P fuel noop_coroutine st = Returned st.
Proof. destruct fuel; reflexivity. Qed.

(** Unfolding equations of [exec] and [resume]. *)

Section ExecEquations.
Variable P : promise_type.
Variable nested_resume : coroutine_handle -> heap -> outcome.
Variable bound : nat.

Lemma exec_co_return (a : nat) (v : Z) (st : heap) :
  exec P nested_resume bound a (co_return v) st
  = match destroy_locals a (Promise_return_value a v st) with
    | Some st' => final_suspend P a st'
    | None => seg_undefined
    end.
Proof. reflexivity. Qed.

Lemma exec_co_yield (a : nat) (v : Z) (k : body) (st : heap) :
  exec P nested_resume bound a (co_yield v k) st
  = match yield_value_awaiter P with
    | suspend_always =>
        seg_suspended (set_point a (at_co_yield k) (Promise_yield_value a v st))
    | RepeatAwaiter =>
        match RepeatAwaiter_await_suspend
                (set_point a (at_co_yield k) (Promise_yield_value a v st)) (frame_at a) with
        | Some (_, h) =>
            seg_transfer h (set_point a (at_co_yield k) (Promise_yield_value a v st))
        | None => seg_undefined
        end
    end.
Proof. reflexivity. Qed.

Lemma exec_throw (a : nat) (e : exn) (st : heap) :
  exec P nested_resume bound a (throw e) st = unhandled P a e st.
Proof. reflexivity. Qed.

Lemma exec_spawn_task (a : nat) (callee : body) (k : coroutine_handle -> body) (st : heap) :
  exec P nested_resume bound a (spawn_task callee k) st
  = match frames st !! a with
    | Some fr =>
        exec P nested_resume bound a (k (fst (create callee st)))
          (set_locals a (locals fr ++ [fst (create callee st)]) (snd (create callee st)))
    | None => seg_undefined
    end.
Proof. reflexivity. Qed.

Lemma exec_co_await (a : nat) (aw : awaiter_kind) (task : coroutine_handle) (k : Z -> body)
    (st : heap) :
  exec P nested_resume bound a (co_await aw task k) st
  = match await_ready aw st task with
    | Some true =>
        match await_resume aw st task with
        | normal v => exec P nested_resume bound a (k v) st
        | throws e => unhandled P a e st
        | undefined_behaviour => seg_undefined
        end
    | Some false =>
        await_suspend nested_resume bound aw task (frame_at a)
          (set_point a (at_co_await aw task k) st)
    | None => seg_undefined
    end.
Proof. reflexivity. Qed.
End ExecEquations.

Lemma resume_frame_at (P : promise_type) (fuel : nat) (a : nat) (st : heap) (fr : frame) :
  frames st !! a = Some fr ->
  resume P (S fuel) (frame_at a) st
  = match resume_frame P (resume P fuel) fuel a fr st with
    | seg_suspended st' => Returned st'
    | seg_transfer h' st' => resume P fuel h' st'
    | seg_raised e st' => Raised e st'
    | seg_terminate => Terminated
    | seg_undefined => Undefined
    | seg_out_of_fuel => OutOfFuel
    end.
Proof. intros Hl. simpl. rewrite Hl. reflexivity. Qed.

Lemma resume_transfer (P : promise_type) (fuel : nat) (a : nat) (st : heap) (fr : frame)
    (h : coroutine_handle) (st' : heap) :
  frames st !! a = Some fr ->
  resume_frame P (resume P fuel) fuel a fr st = seg_transfer h st' ->
  resume P (S fuel) (frame_at a) st = resume P fuel h st'.
Proof. intros Hl Hs. rewrite (resume_frame_at P fuel a st fr Hl), Hs. reflexivity. Qed.

Lemma resume_suspended (P : promise_type) (fuel : nat) (a : nat) (st : heap) (fr : frame)
    (st' : heap) :
  frames st !! a = Some fr ->
  resume_frame P (resume P fuel) fuel a fr st = seg_suspended st' ->
  resume P (S fuel) (frame_at a) st = Returned st'.
Proof. intros Hl Hs. rewrite (resume_frame_at P fuel a st fr Hl), Hs. reflexivity. Qed.

Lemma destroy_locals_nil (a : nat) (st : heap) (fr : frame) :
  frames st !! a = Some fr -> locals fr = [] ->
  destroy_locals a st = Some (set_locals a [] st).
Proof. intros Hl Hn. unfold destroy_locals. rewrite Hl. simpl. rewrite Hn. reflexivity. Qed.

(** ** The programs run as their comments say *)

(** [main] of the hello/world program: the first [resume()] runs [world()]
    to its end inside the await and stops at [co_yield 42], the second stops
    at [co_yield 100], the third completes [hello()] with 200; [world()]'s
    frame is released when [hello()] returns. *)
Example hello_resumes :
  let task := fst (main_task hello) in
  ∃ st1 st2 st3,
    resume Promise 8 task (snd (main_task hello)) = Returned st1 ∧
    Task_value st1 task = Some 42%Z ∧ Task_done st1 task = false ∧
    Task_value st1 (frame_at 1) = Some 42%Z ∧ Task_done st1 (frame_at 1) = true ∧
    resume Promise 8 task st1 = Returned st2 ∧
    Task_value st2 task = Some 100%Z ∧ Task_done st2 task = false ∧
    resume Promise 8 task st2 = Returned st3 ∧
    Task_value st3 task = Some 200%Z ∧ Task_done st3 task = true ∧
    frames st3 !! 1 = None.
Proof.
  do 3 eexists.
  repeat (split; [vm_compute; reflexivity|]). vm_compute; reflexivity.
Qed.

(** [main] of the recursive program: [factorial(5)] is 120 after one
    [resume()]. *)
Example factorial_5 :
  ∃ st, resume Promise 9 (fst (main_task (factorial 5))) (snd (main_task (factorial 5)))
        = Returned st ∧
        Task_value st (frame_at 0) = Some 120%Z ∧ Task_done st (frame_at 0) = true.
Proof. eexists. repeat (split; [vm_compute; reflexivity|]). vm_compute; reflexivity. Qed.

(** With [Promise<T>], the error of the callee travels up one await: the
    one [resume()] returns, and [result()] on the caller's frame raises the
    same error. *)
Example stored_error_travels_up :
  ∃ st fr,
    resume Promise_T 4 (fst (main_task (awaits_thrower "boom"%string)))
      (snd (main_task (awaits_thrower "boom"%string))) = Returned st ∧
    frames st !! 0 = Some fr ∧
    is_final (point fr) = true ∧
    Promise_result fr = throws "boom"%string.
Proof. do 2 eexists. repeat (split; [vm_compute; reflexivity|]). vm_compute; reflexivity. Qed.

(** ** C1: the factorial chain *)

Lemma Int_wrap_in_range (z : Z) : Int.in_range z -> Int.wrap z = z.
Proof.
  unfold Int.in_range, Int.wrap, Int.min_signed, Int.max_signed. intros H.
  rewrite Z.mod_small by lia. lia.
Qed.

Lemma factorial_base (n : Z) : (n <= 1)%Z -> factorial n = co_return 1.
Proof.
  intros H. unfold factorial. destruct (Z.to_nat n); simpl;
    destruct (Z.leb_spec n 1); try reflexivity; lia.
Qed.

Lemma factorial_step (n : Z) :
  (1 < n <= Int.max_signed)%Z ->
  factorial n
  = spawn_task (factorial (n - 1)) (fun sub_task =>
      co_await CalleeAwaiter sub_task (fun sub_result =>
        co_return (Int.mul n sub_result))).
Proof.
  intros H. unfold factorial.
  replace (Z.to_nat n) with (S (Z.to_nat (n - 1))) by lia.
  simpl. destruct (Z.leb_spec n 1); [lia|].
  unfold Int.sub. rewrite Int_wrap_in_range; [reflexivity|].
  unfold Int.in_range, Int.min_signed, Int.max_signed in *. lia.
Qed.

Lemma update_frame_top (c : nat) (f : frame -> frame) (fc : frame) (m : gmap nat frame)
    (n : nat) :
  update_frame c f (Heap (<[c := fc]> m) n) = Heap (<[c := f fc]> m) n.
Proof.
  rewrite (update_frame_insert c f _ n fc) by apply lookup_insert_eq.
  by rewrite insert_insert_eq.
Qed.

Lemma update_frame_under (a c : nat) (f : frame -> frame) (fa fc : frame)
    (m : gmap nat frame) (n : nat) :
  a ≠ c ->
  update_frame a f (Heap (<[c := fc]> (<[a := fa]> m)) n)
  = Heap (<[c := fc]> (<[a := f fa]> m)) n.
Proof.
  intros Hne.
  rewrite (update_frame_insert a f _ n fa)
    by (rewrite lookup_insert_ne by done; apply lookup_insert_eq).
  f_equal. rewrite (insert_insert_ne _ a c) by done. by rewrite insert_insert_eq.
Qed.

Ltac fields := cbn [point _value exception previous locals frames next_address fst snd].

Lemma valid_handle_insert (m : gmap nat frame) (n n' a : nat) (fr fr' : frame)
    (h : coroutine_handle) :
  valid_handle (Heap (<[a := fr]> m) n) h -> valid_handle (Heap (<[a := fr']> m) n') h.
Proof.
  destruct h as [| |p]; unfold valid_handle; fields; try done.
  rewrite !lookup_insert. by case_decide.
Qed.

(** [co_return v] in a frame without [Task] locals. *)
Lemma exec_co_return_no_locals (P : promise_type)
    (nested_resume : coroutine_handle -> heap -> outcome)
    (bound : nat) (a : nat) (v : Z) (p : resume_point) (v0 : option Z) (x0 : option exn)
    (prev : coroutine_handle) (m : gmap nat frame) (n : nat) :
  final_suspend_awaiter P = PreviousAwaiter ->
  valid_handle (Heap (<[a := Frame p v0 x0 prev []]> m) n) prev ->
  exec P nested_resume bound a (co_return v) (Heap (<[a := Frame p v0 x0 prev []]> m) n)
  = let st' := Heap (<[a := Frame at_final_suspend (Some v) x0 prev []]> m) n in
    seg_transfer (if continuation_runnable st' prev then prev else noop_coroutine) st'.
Proof.
  intros HP Hv. rewrite exec_co_return.
  unfold Promise_return_value, set_value. rewrite update_frame_top. fields.
  erewrite destroy_locals_nil; [|apply lookup_insert_eq|reflexivity].
  unfold set_locals. rewrite update_frame_top. fields.
  erewrite final_suspend_PreviousAwaiter; [|exact HP|apply lookup_insert_eq|].
  - unfold set_point. rewrite update_frame_top. reflexivity.
  - fields. eapply valid_handle_insert, Hv.
Qed.

(** [~Task()] of a local whose frame [c] is complete and owns nothing. *)
Lemma coroutine_destroy_complete (c : nat) (fc : frame) (m : gmap nat frame) (n : nat) :
  point fc = at_final_suspend ->
  locals fc = [] ->
  m !! c = None ->
  coroutine_destroy c (Heap (<[c := fc]> m) n) = Some (Heap m n).
Proof.
  intros Hp Hn Hm. unfold coroutine_destroy. cbn [destroy_frame frames].
  rewrite lookup_insert_eq. cbn [mbind option_bind]. rewrite Hp, Hn. cbn.
  by rewrite delete_insert_id.
Qed.

(** [co_return v] in the frame [a] whose one [Task] local holds the complete
    frame [c]. *)
Lemma exec_co_return_one_local (P : promise_type)
    (nested_resume : coroutine_handle -> heap -> outcome)
    (bound : nat) (a c : nat) (v : Z) (p : resume_point) (v0 : option Z) (x0 : option exn)
    (prev : coroutine_handle) (fc : frame) (m : gmap nat frame) (n : nat) :
  final_suspend_awaiter P = PreviousAwaiter ->
  a ≠ c ->
  m !! c = None ->
  point fc = at_final_suspend ->
  locals fc = [] ->
  valid_handle (Heap (<[a := Frame p v0 x0 prev [frame_at c]]> m) n) prev ->
  exec P nested_resume bound a (co_return v)
    (Heap (<[c := fc]> (<[a := Frame p v0 x0 prev [frame_at c]]> m)) n)
  = let st' := Heap (<[a := Frame at_final_suspend (Some v) x0 prev []]> m) n in
    seg_transfer (if continuation_runnable st' prev then prev else noop_coroutine) st'.
Proof.
  intros HP Hne Hm Hp Hn Hv. rewrite exec_co_return.
  unfold Promise_return_value, set_value. rewrite update_frame_under by done. fields.
  unfold destroy_locals. fields.
  rewrite lookup_insert_ne, lookup_insert_eq by done. cbn [mbind option_bind]. fields.
  unfold set_locals. rewrite update_frame_under by done. fields.
  cbn [destroy_tasks foldr mbind option_bind Task_dtor handle_destroy handle_bool].
  rewrite coroutine_destroy_complete; [|done|done|by rewrite lookup_insert_ne].
  erewrite final_suspend_PreviousAwaiter; [|exact HP|apply lookup_insert_eq|].
  - unfold set_point. rewrite update_frame_top. reflexivity.
  - fields. eapply valid_handle_insert, Hv.
Qed.

(** [Task sub_task = f(...); int r = co_await sub_task; ...] in the
    executing frame [a]: a frame for [f(...)] is created at the next
    address, [a] is suspended in the await and attached as continuation,
    and control is transferred to the new frame. *)
Lemma exec_spawn_await (P : promise_type)
    (nested_resume : coroutine_handle -> heap -> outcome)
    (bound : nat) (a : nat) (callee : body) (k : Z -> body) (p : resume_point)
    (v0 : option Z) (x0 : option exn) (prev : coroutine_handle) (m : gmap nat frame)
    (n : nat) :
  a ≠ n ->
  exec P nested_resume bound a
    (spawn_task callee (fun sub_task => co_await CalleeAwaiter sub_task k))
    (Heap (<[a := Frame p v0 x0 prev []]> m) n)
  = seg_transfer (frame_at n)
      (Heap (<[n := Frame (at_initial_suspend callee) None None (frame_at a) []]>
             (<[a := Frame (at_co_await CalleeAwaiter (frame_at n) k) v0 x0 prev [frame_at n]]>
              m)) (S n)).
Proof.
  intros Hne. rewrite exec_spawn_task. fields. rewrite lookup_insert_eq.
  unfold create, new_frame. fields.
  unfold set_locals. rewrite update_frame_under by done. fields.
  rewrite exec_co_await. cbn [await_ready].
  unfold set_point. rewrite update_frame_under by done. fields.
  unfold await_suspend, CalleeAwaiter_await_suspend. fields.
  rewrite lookup_insert_eq. cbn [mbind option_bind].
  unfold set_previous. rewrite update_frame_top. reflexivity.
Qed.

(** One [resume()] of a frame suspended at the start of [factorial(k + 1)]
    runs the whole chain below it: when control leaves the frame for its
    continuation, the frame is complete, holds the product, and every frame
    created on the way has been destroyed.  [2 * k + 1] frame runs are
    used. *)
Lemma factorial_run (k : nat) :
  ∀ (m : gmap nat frame) (nx a : nat) (v0 : option Z) (x0 : option exn)
    (prev : coroutine_handle) (fuel : nat),
    (Z.of_nat (S k) <= Int.max_signed)%Z ->
    a < nx ->
    (∀ i, is_Some (m !! i) -> i < nx) ->
    valid_handle
      (Heap (<[a := Frame (at_initial_suspend (factorial (Z.of_nat (S k)))) v0 x0 prev []]> m)
         nx) prev ->
    resume Promise (2 * k + 1 + fuel) (frame_at a)
      (Heap (<[a := Frame (at_initial_suspend (factorial (Z.of_nat (S k)))) v0 x0 prev []]> m)
         nx)
    = let st' := Heap (<[a := Frame at_final_suspend (Some (factorial_value k)) x0 prev []]> m)
                   (nx + k) in
      resume Promise fuel (if continuation_runnable st' prev then prev else noop_coroutine) st'.
Proof.
  induction k as [|k IH]; intros m nx a v0 x0 prev fuel Hmax Ha Hfresh Hv.
  - change (2 * 0 + 1 + fuel) with (S fuel).
    erewrite resume_transfer; [|apply lookup_insert_eq|].
    2:{ unfold resume_frame. fields. unfold set_point. rewrite update_frame_top. fields.
        rewrite factorial_base by lia.
        apply exec_co_return_no_locals; [reflexivity|]. eapply valid_handle_insert, Hv. }
    rewrite Nat.add_0_r. reflexivity.
  - assert (Hc : m !! nx = None).
    { destruct (m !! nx) eqn:E; [|done]. assert (nx < nx) by (apply Hfresh; by eexists). lia. }
    replace (2 * S k + 1 + fuel) with (S (2 * k + 1 + S fuel)) by lia.
    erewrite resume_transfer; [|apply lookup_insert_eq|].
    2:{ unfold resume_frame. fields. unfold set_point. rewrite update_frame_top. fields.
        rewrite factorial_step by lia.
        apply exec_spawn_await. lia. }
    replace (Z.of_nat (S (S k)) - 1)%Z with (Z.of_nat (S k)) by lia.
    rewrite IH.
    + cbn zeta. unfold continuation_runnable at 1. fields.
      rewrite lookup_insert_ne, lookup_insert_eq by lia. fields. cbn [is_final negb].
      erewrite resume_transfer;
        [|fields; rewrite lookup_insert_ne by lia; apply lookup_insert_eq|].
      2:{ unfold resume_frame. fields. unfold set_point.
          rewrite update_frame_under by lia. fields.
          unfold await_resume, CalleeAwaiter_await_resume, Promise_get_value. fields.
          rewrite lookup_insert_eq. cbn [mbind option_bind value_or]. fields.
          apply exec_co_return_one_local; try done; try lia.
          eapply valid_handle_insert, Hv. }
      cbn zeta. replace (S nx + k) with (nx + S k) by lia. reflexivity.
    + lia.
    + lia.
    + intros i. rewrite lookup_insert. case_decide; [lia|]. intros Hi.
      assert (i < nx) by (apply Hfresh, Hi). lia.
    + unfold valid_handle. fields. rewrite lookup_insert_ne, lookup_insert_eq by lia.
      by eexists.
Qed.

(** Up to 12!, the product fits in an [int]. *)
Lemma factorial_value_exact (k : nat) : k < 12 -> factorial_value k = Zfact (S k).
Proof.
  intros H. do 12 (destruct k as [|k]; [vm_compute; reflexivity|]). lia.
Qed.

(** One top-level [resume()] on [factorial(n)], for every [n >= 1] that is
    an [int]: the call returns, the frame is complete and holds the
    product computed in [int] arithmetic, and no other frame is left. *)
Lemma factorial_resume_int (n : Z) (fuel : nat) :
  (1 <= n <= Int.max_signed)%Z ->
  resume Promise (Z.to_nat (2 * n - 1) + fuel)
    (fst (main_task (factorial n))) (snd (main_task (factorial n)))
  = Returned
      (Heap {[0 := Frame at_final_suspend (Some (factorial_value (Z.to_nat (n - 1))))
                     None noop_coroutine []]}
         (Z.to_nat n)).
Proof.
  intros Hn. unfold main_task, create, empty_heap, new_frame. fields.
  remember (Z.to_nat (n - 1)) as k eqn:Ek.
  assert (En : n = Z.of_nat (S k)) by lia. rewrite En in *. clear En Ek.
  replace (Z.to_nat (2 * Z.of_nat (S k) - 1) + fuel) with (2 * k + 1 + fuel) by lia.
  rewrite factorial_run.
  - cbn zeta. cbn [continuation_runnable]. rewrite resume_noop.
    rewrite insert_empty. do 2 f_equal. lia.
  - lia.
  - lia.
  - intros i [x Hx]. by rewrite lookup_empty in Hx.
  - exact I.
Qed.

(** C1, as stated, fails from [n = 13] on: [13!] is not an [int], and the
    frame holds the product reduced to 32 bits. *)
Lemma factorial_single_resume_counterexample :
  ∃ st, resume Promise 25 (fst (main_task (factorial 13))) (snd (main_task (factorial 13)))
        = Returned st ∧
        Task_done st (fst (main_task (factorial 13))) = true ∧
        Task_value st (fst (main_task (factorial 13))) = Some 1932053504%Z ∧
        Task_value st (fst (main_task (factorial 13))) ≠ Some (Zfact 13).
Proof.
  eexists. split; [vm_compute; reflexivity|].
  split; [reflexivity|]. split; [reflexivity|]. vm_compute. discriminate.
Qed.

(** C1, amended.  For every [n] with [1 <= n <= 12] (the range in which
    [n!] is an [int]), one top-level [resume()] on the task returned by
    [factorial(n)] runs the whole chain of nested awaits down to the base
    case and back up: the call returns, the task is done, [value()] holds
    [n!], and every frame created on the way has been destroyed.
    [factorial(5)] yields 120 after this one [resume()]. *)
Theorem factorial_single_resume (n : Z) (fuel : nat) :
  (1 <= n <= 12)%Z ->
  let task := fst (main_task (factorial n)) in
  let st0 := snd (main_task (factorial n)) in
  Task_done st0 task = false ∧
  ∃ st, resume Promise (Z.to_nat (2 * n - 1) + fuel) task st0 = Returned st ∧
        Task_done st task = true ∧
        Task_value st task = Some (Zfact (Z.to_nat n)) ∧
        (n = 5%Z -> Task_value st task = Some 120%Z) ∧
        (∀ a, a ≠ 0 -> frames st !! a = None).
Proof.
  intros Hn task st0. split; [reflexivity|].
  eexists. split.
  { apply factorial_resume_int. unfold Int.max_signed. lia. }
  assert (Hval : Some (factorial_value (Z.to_nat (n - 1))) = Some (Zfact (Z.to_nat n))).
  { rewrite factorial_value_exact by lia. do 2 f_equal. lia. }
  split; [reflexivity|]. split; [exact Hval|]. split.
  - intros ->. reflexivity.
  - intros a Ha. fields. by rewrite lookup_singleton_ne.
Qed.

Lemma factorial_single_resume_witness :
  ∃ st, resume Promise 9 (fst (main_task (factorial 5))) (snd (main_task (factorial 5)))
        = Returned st ∧
        Task_value st (fst (main_task (factorial 5))) = Some 120%Z.
Proof.
  destruct (factorial_single_resume 5 0 ltac:(lia)) as (_ & st & H1 & _ & _ & H2 & _).
  exists st. split; [exact H1|]. apply H2. reflexivity.
Defined.

(** ** C2: the Return protocol *)



(** ** C3: errors raised by a frame body *)

Lemma final_suspend_quiet (P : promise_type) (a : nat) (st : heap) :
  quiet_segment (final_suspend P a st).
Proof.
  unfold final_suspend. destruct (final_suspend_awaiter P); [exact I|].
  destruct (frames _ !! a) as [fr|]; [|exact I].
  destruct (PreviousAwaiter_await_suspend _ _) as [[msg h]|]; exact I.
Qed.

Section StoredExceptions.
Variable P : promise_type.
Hypothesis P_stores : unhandled_exception P = store_exception.

Lemma unhandled_quiet (a : nat) (e : exn) (st : heap) :
  quiet_segment (unhandled P a e st).
Proof using P_stores.
  unfold unhandled. destruct (destroy_locals a st) as [st1|]; [|exact I].
  rewrite P_stores. apply final_suspend_quiet.
Qed.

Section Nested.
Variable nested_resume : coroutine_handle -> heap -> outcome.
Hypothesis nested_quiet : ∀ h st, quiet (nested_resume h st).

Lemma drive_quiet (bound : nat) (callee : coroutine_handle) (st : heap) :
  quiet (drive nested_resume bound callee st).
Proof using nested_quiet.
  revert st. induction bound as [|bound IH]; intros st; simpl.
  - destruct (handle_done st callee) as [[|]|]; exact I.
  - destruct (handle_done st callee) as [[|]|]; try exact I.
    pose proof (nested_quiet callee st) as Hq.
    destruct (nested_resume callee st); try exact I; try contradiction.
    apply IH.
Qed.

Lemma await_suspend_quiet (bound : nat) (aw : awaiter_kind) (callee caller : coroutine_handle)
    (st : heap) :
  quiet_segment (await_suspend nested_resume bound aw callee caller st).
Proof using nested_quiet.
  assert (HC : quiet_segment
                 match CalleeAwaiter_await_suspend callee caller st with
                 | Some (h, st') => seg_transfer h st'
                 | None => seg_undefined
                 end).
  { destruct (CalleeAwaiter_await_suspend callee caller st) as [[h st']|]; exact I. }
  destruct aw; try exact HC.
  unfold await_suspend, WorldTask_CalleeAwaiter_await_suspend.
  destruct callee as [| |c]; try exact I.
  destruct (frames st !! c); [|exact I].
  pose proof (drive_quiet bound (frame_at c) (set_previous c caller st)) as Hq.
  destruct (drive _ _ _ _); try exact I; contradiction.
Qed.

Lemma exec_quiet (bound : nat) (a : nat) (b : body) (st : heap) :
  quiet_segment (exec P nested_resume bound a b st).
Proof using P_stores nested_quiet.
  revert st. induction b as [v|v k IH|e|callee IHc k IH|aw task k IH]; intros st.
  - rewrite exec_co_return.
    destruct (destroy_locals _ _); [apply final_suspend_quiet|exact I].
  - rewrite exec_co_yield. destruct (yield_value_awaiter P); [exact I|].
    destruct (RepeatAwaiter_await_suspend _ _) as [[msg h]|]; exact I.
  - rewrite exec_throw. apply unhandled_quiet.
  - rewrite exec_spawn_task. destruct (frames st !! a); [apply IH|exact I].
  - rewrite exec_co_await. destruct (await_ready aw st task) as [[|]|]; try exact I.
    + destruct (await_resume aw st task); [apply IH|apply unhandled_quiet|exact I].
    + apply await_suspend_quiet.
Qed.

Lemma resume_frame_quiet (bound : nat) (a : nat) (fr : frame) (st : heap) :
  quiet_segment (resume_frame P nested_resume bound a fr st).
Proof using P_stores nested_quiet.
  unfold resume_frame. destruct (point fr) as [b|k|aw callee k| |]; try exact I.
  - apply exec_quiet.
  - apply exec_quiet.
  - destruct (await_resume _ _ _); [apply exec_quiet|apply unhandled_quiet|exact I].
Qed.
End Nested.

Lemma resume_quiet (fuel : nat) (h : coroutine_handle) (st : heap) :
  quiet (resume P fuel h st).
Proof using P_stores.
  revert h st. induction fuel as [|fuel IH]; intros h st.
  - destruct h; exact I.
  - destruct h as [| |a]; try exact I.
    simpl. destruct (frames st !! a) as [fr|]; [|exact I].
    pose proof (resume_frame_quiet (resume P fuel) IH fuel a fr st) as Hq.
    destruct (resume_frame _ _ _ _ _ _); try exact I; try contradiction.
    apply IH.
Qed.
End StoredExceptions.

(** C3, as stated, fails for the promise types whose [unhandled_exception]
    is [throw;]: the error leaves [resume()] at once and the frame stores
    nothing. *)
Lemma error_capture_counterexample :
  ∃ st', resume Promise 1 (fst (throwing_task "boom"%string)) (snd (throwing_task "boom"%string))
         = Raised "boom"%string st' ∧
         exception <$> frames st' !! 0 = Some None.
Proof. eexists. split; reflexivity. Qed.

(** C3, amended.  With a promise type whose [unhandled_exception] stores
    the exception ([Promise<T>] of the loop program), no call of [resume()]
    lets an exception out, whatever the frames do; an error leaving the
    body of frame [a] is stored in the frame, control goes on through the
    Return protocol, and the error is raised again by [result()] and by
    [Task<T>::Awaiter::await_resume] when they read the frame.  With a
    promise type whose [unhandled_exception] is [throw;] ([Promise] of
    simple-task.cc and of the recursive program), the error is raised out
    of the running [resume()] and nothing is stored. *)
Theorem error_capture (a : nat) (fr : frame) (e : exn) (st : heap) :
  frames st !! a = Some fr ->
  locals fr = [] ->
  valid_handle st (previous fr) ->
  (∀ P, unhandled_exception P = store_exception ->
        ∀ fuel h st0, quiet (resume P fuel h st0)) ∧
  (∀ nested_resume bound,
     ∃ h st',
       exec Promise_T nested_resume bound a (throw e) st = seg_transfer h st' ∧
       frames st' !! a = Some (Frame at_final_suspend (_value fr) (Some e) (previous fr) []) ∧
       (∀ fr', frames st' !! a = Some fr' -> Promise_result fr' = throws e) ∧
       Task_Awaiter_await_resume st' (frame_at a) = throws e) ∧
  (∀ P nested_resume bound,
     unhandled_exception P = rethrow ->
     exec P nested_resume bound a (throw e) st
     = seg_raised e (set_point a at_final_suspend (set_locals a [] st)) ∧
     (point fr = at_initial_suspend (throw e) ->
      ∀ fuel, ∃ st', resume P (S fuel) (frame_at a) st = Raised e st' ∧
                     exception <$> frames st' !! a = Some (exception fr))).
Proof.
  intros Hl Hn Hv. split; [|split].
  - intros P HP fuel h st0. by apply resume_quiet.
  - intros nested_resume bound.
    set (st1 := set_exception a (Some e) (set_locals a [] st)).
    set (fr1 := Frame (point fr) (_value fr) (Some e) (previous fr) []).
    assert (H1 : frames st1 !! a = Some fr1).
    { unfold st1, set_exception, set_locals.
      rewrite !lookup_update_frame_eq, Hl. reflexivity. }
    assert (Hv1 : valid_handle st1 (previous fr1)).
    { change (previous fr1) with (previous fr).
      destruct (previous fr) as [| |c]; unfold valid_handle in *; try done.
      unfold st1, set_exception, set_locals. destruct (decide (a = c)) as [->|Hne].
      - rewrite !lookup_update_frame_eq, Hl. by eexists.
      - by rewrite !lookup_update_frame_ne. }
    assert (H2 : frames (set_point a at_final_suspend st1) !! a
                 = Some (Frame at_final_suspend (_value fr) (Some e) (previous fr) [])).
    { unfold set_point. rewrite lookup_update_frame_eq, H1. reflexivity. }
    eexists _, (set_point a at_final_suspend st1).
    split; [|split; [exact H2|split]].
    + rewrite exec_throw. unfold unhandled.
      rewrite (destroy_locals_nil a st fr Hl Hn). simpl unhandled_exception. cbv iota.
      fold st1. by apply (final_suspend_PreviousAwaiter Promise_T a st1 fr1).
    + intros fr' Hfr'. rewrite H2 in Hfr'. by injection Hfr' as <-.
    + unfold Task_Awaiter_await_resume. rewrite H2. reflexivity.
  - intros P nested_resume bound HP.
    assert (He : exec P nested_resume bound a (throw e) st
                 = seg_raised e (set_point a at_final_suspend (set_locals a [] st))).
    { rewrite exec_throw. unfold unhandled.
      by rewrite (destroy_locals_nil a st fr Hl Hn), HP. }
    split; [exact He|].
    intros Hp fuel. eexists. split.
    + rewrite (resume_frame_at P fuel a st fr Hl). unfold resume_frame. rewrite Hp.
      rewrite exec_throw. unfold unhandled.
      erewrite destroy_locals_nil;
        [rewrite HP; reflexivity
        |unfold set_point; rewrite lookup_update_frame_eq, Hl; reflexivity
        |exact Hn].
    + unfold set_point, set_locals. rewrite !lookup_update_frame_eq, Hl. reflexivity.
Qed.

Lemma error_capture_witness :
  ∃ h st',
    exec Promise_T (resume Promise_T 0) 0 0 (throw "boom"%string)
      (set_point 0 running (snd (throwing_task "boom"%string)))
    = seg_transfer h st' ∧
    frames st' !! 0 = Some (Frame at_final_suspend None (Some "boom"%string) noop_coroutine []).
Proof.
  destruct (proj1 (proj2 (error_capture 0
              (Frame running None None noop_coroutine []) "boom"%string
              (set_point 0 running (snd (throwing_task "boom"%string)))
              eq_refl eq_refl I)) (resume Promise_T 0) 0)
    as (h & st' & H1 & H2 & _).
  exists h, st'. split; [exact H1|exact H2].
Defined.

(** ** C4: awaiting a frame that is already complete *)

(** C4, as stated, fails for [CalleeAwaiter] of the recursive program: the
    await of a complete frame suspends the awaiting frame, attaches it as
    continuation and transfers control into the complete frame, so that
    [resume()] re-enters it. *)
Lemma await_complete_callee_counterexample :
  handle_done completed_callee (frame_at 1) = Some true ∧
  await_ready CalleeAwaiter completed_callee (frame_at 1) = Some false ∧
  (∃ st', exec Promise (resume Promise 0) 0 0
            (co_await CalleeAwaiter (frame_at 1) co_return) completed_callee
          = seg_transfer (frame_at 1) st' ∧
          point <$> frames st' !! 0
          = Some (at_co_await CalleeAwaiter (frame_at 1) co_return) ∧
          previous <$> frames st' !! 1 = Some (frame_at 0)) ∧
  resume Promise 3 (frame_at 0) completed_callee = Undefined.
Proof.
  split; [reflexivity|]. split; [reflexivity|]. split; [|reflexivity].
  eexists. split; [reflexivity|]. split; reflexivity.
Qed.

(** C4, amended.  Through [WorldTask::CalleeAwaiter], the await of a task
    whose frame [c] is complete neither suspends nor transfers: the stored
    value is read at once (0 for an empty slot) and the awaiting body goes
    on in the same step, on the unchanged heap.  Through [CalleeAwaiter] of
    the recursive program and [Task<T>::Awaiter], [await_ready] is false
    whatever the state of [c]: the awaiting frame is suspended, attached as
    continuation of [c], and control is transferred to [c]. *)
Theorem await_complete_callee (P : promise_type)
    (nested_resume : coroutine_handle -> heap -> outcome) (bound : nat)
    (st : heap) (a c : nat) (fc : frame) (k : Z -> body) :
  frames st !! c = Some fc ->
  is_final (point fc) = true ->
  (await_ready WorldTask_CalleeAwaiter st (frame_at c) = Some true ∧
   exec P nested_resume bound a (co_await WorldTask_CalleeAwaiter (frame_at c) k) st
   = exec P nested_resume bound a (k (value_or (_value fc) 0%Z)) st) ∧
  (∀ aw, aw = CalleeAwaiter ∨ aw = Task_Awaiter ->
     await_ready aw st (frame_at c) = Some false ∧
     exec P nested_resume bound a (co_await aw (frame_at c) k) st
     = seg_transfer (frame_at c)
         (set_previous c (frame_at a) (set_point a (at_co_await aw (frame_at c) k) st))).
Proof.
  intros Hc Hf. split.
  - assert (Hr : await_ready WorldTask_CalleeAwaiter st (frame_at c) = Some true).
    { simpl. rewrite Hc. simpl. by rewrite Hf. }
    split; [exact Hr|].
    rewrite exec_co_await, Hr. unfold await_resume, CalleeAwaiter_await_resume, Promise_get_value.
    rewrite Hc. reflexivity.
  - intros aw Haw.
    assert (Hr : await_ready aw st (frame_at c) = Some false)
      by (destruct Haw as [-> | ->]; reflexivity).
    split; [exact Hr|].
    assert (Hl : is_Some (frames (set_point a (at_co_await aw (frame_at c) k) st) !! c)).
    { unfold set_point. destruct (decide (a = c)) as [->|Hne].
      - rewrite lookup_update_frame_eq, Hc. by eexists.
      - rewrite lookup_update_frame_ne, Hc by done. by eexists. }
    destruct Hl as [fc' Hfc'].
    rewrite exec_co_await, Hr.
    destruct Haw as [-> | ->]; unfold await_suspend, CalleeAwaiter_await_suspend;
      rewrite Hfc'; reflexivity.
Qed.

Lemma await_complete_callee_witness :
  exec Promise (resume Promise 0) 0 0
    (co_await WorldTask_CalleeAwaiter (frame_at 1) co_return) completed_world
  = exec Promise (resume Promise 0) 0 0 (co_return 42%Z) completed_world.
Proof.
  refine (proj2 (proj1 (await_complete_callee Promise (resume Promise 0) 0
            completed_world 0 1
            (Frame at_final_suspend (Some 42%Z) None noop_coroutine [])
            co_return _ _))); reflexivity.
Defined.

(** ** C5: two yields and a return *)

(** C5, as stated, fails for [work()] of simple-task.cc, whose promise is
    [Promise<int, RepeatAwaiter>]: the first [resume()] runs through both
    yields and the return, so that after it the task is done and holds 3. *)
Lemma work_resumes_counterexample :
  let task := fst (main_task work) in
  let st0 := snd (main_task work) in
  ∃ st1, resume Promise_RepeatAwaiter 3 task st0 = Returned st1 ∧
         Task_done st1 task = true ∧
         Task_value st1 task = Some 3%Z ∧
         Task_value st1 task ≠ Some 1%Z.
Proof.
  eexists. split; [reflexivity|]. split; [reflexivity|]. split; [reflexivity|].
  discriminate.
Qed.

(** C5, amended.  When [yield_value] returns [std::suspend_always] (the
    default [Awaiter] of [Promise<T, Awaiter>], and [Promise] of the other
    programs), a body that yields [v1], yields [v2] and returns [v3] exposes
    [v1] after the first [resume()], [v2] after the second and [v3] after
    the third, and is done only after the third.  When [yield_value]
    returns [RepeatAwaiter] (the promise type of [work()]), each yield
    transfers straight back into the coroutine: the first [resume()] runs
    to completion and leaves [v3]. *)
Theorem yields_then_return (fa : final_awaiter) (ep : exception_policy)
    (v1 v2 v3 : Z) (fuel : nat) :
  let task := fst (main_task (yield_yield_return v1 v2 v3)) in
  let st0 := snd (main_task (yield_yield_return v1 v2 v3)) in
  Task_done st0 task = false ∧
  (∃ st1 st2 st3,
     resume (PromiseType suspend_always fa ep) (S fuel) task st0 = Returned st1 ∧
     Task_value st1 task = Some v1 ∧ Task_done st1 task = false ∧
     resume (PromiseType suspend_always fa ep) (S fuel) task st1 = Returned st2 ∧
     Task_value st2 task = Some v2 ∧ Task_done st2 task = false ∧
     resume (PromiseType suspend_always fa ep) (S fuel) task st2 = Returned st3 ∧
     Task_value st3 task = Some v3 ∧ Task_done st3 task = true) ∧
  (∃ st1,
     resume (PromiseType RepeatAwaiter fa ep) (3 + fuel) task st0 = Returned st1 ∧
     Task_value st1 task = Some v3 ∧ Task_done st1 task = true).
Proof.
  intros task st0. subst task.
  change (fst (main_task (yield_yield_return v1 v2 v3))) with (frame_at 0).
  split; [reflexivity|]. split.
  - destruct fa; do 3 eexists.
    all: split; [reflexivity|]; split; [reflexivity|]; split; [reflexivity|].
    all: split; [reflexivity|]; split; [reflexivity|]; split; [reflexivity|].
    + split; [reflexivity|]. split; reflexivity.
    + split.
      { erewrite resume_transfer; [apply resume_noop|reflexivity|reflexivity]. }
      split; reflexivity.
  - destruct fa.
    + eexists. split; [reflexivity|]. split; reflexivity.
    + eexists. split.
      { change (3 + fuel) with (S (S (S fuel))).
        do 3 (erewrite resume_transfer; [|reflexivity|reflexivity]).
        apply resume_noop. }
      split; reflexivity.
Qed.

(** ** C6: attaching a continuation *)

(** C6, as stated, fails: attaching to a frame whose continuation is
    already attached succeeds and replaces the continuation, and attaching
    to a complete frame succeeds too. *)
Lemma attach_continuation_set_once_counterexample :
  (previous <$> frames already_attached !! 1 = Some (frame_at 0) ∧
   ∃ st', CalleeAwaiter_await_suspend (frame_at 1) (frame_at 2) already_attached
          = Some (frame_at 1, st') ∧
          previous <$> frames st' !! 1 = Some (frame_at 2)) ∧
  (is_final ∘ point <$> frames already_complete !! 1 = Some true ∧
   ∃ st', CalleeAwaiter_await_suspend (frame_at 1) (frame_at 2) already_complete
          = Some (frame_at 1, st') ∧
          previous <$> frames st' !! 1 = Some (frame_at 2)).
Proof.
  split; (split; [reflexivity|]); eexists; split; reflexivity.
Qed.

(** C6, amended.  Attaching a continuation is an unconditional assignment
    [callee.promise().previous = caller]: for every live callee frame,
    whatever its continuation and whether or not it is complete,
    [CalleeAwaiter::await_suspend] and [Task<T>::Awaiter::await_suspend]
    store the new caller, leave the rest of the frame as it was, and
    transfer to the callee; no attach is rejected. *)
Theorem attach_continuation_overwrites
    (nested_resume : coroutine_handle -> heap -> outcome) (bound : nat)
    (st : heap) (c : nat) (fc : frame) (caller : coroutine_handle) :
  frames st !! c = Some fc ->
  CalleeAwaiter_await_suspend (frame_at c) caller st
  = Some (frame_at c, set_previous c caller st) ∧
  frames (set_previous c caller st) !! c
  = Some (Frame (point fc) (_value fc) (exception fc) caller (locals fc)) ∧
  (∀ aw, aw = CalleeAwaiter ∨ aw = Task_Awaiter ->
     await_suspend nested_resume bound aw (frame_at c) caller st
     = seg_transfer (frame_at c) (set_previous c caller st)).
Proof.
  intros Hc.
  assert (H1 : CalleeAwaiter_await_suspend (frame_at c) caller st
               = Some (frame_at c, set_previous c caller st)).
  { unfold CalleeAwaiter_await_suspend. by rewrite Hc. }
  split; [exact H1|]. split.
  - unfold set_previous. by rewrite lookup_update_frame_eq, Hc.
  - intros aw [-> | ->]; unfold await_suspend; by rewrite H1.
Qed.

Lemma attach_continuation_overwrites_witness :
  CalleeAwaiter_await_suspend (frame_at 1) (frame_at 2) already_attached
  = Some (frame_at 1, set_previous 1 (frame_at 2) already_attached).
Proof.
  refine (proj1 (attach_continuation_overwrites (resume Promise 0) 0 already_attached 1
            (Frame (at_co_yield (co_return 1)) (Some 5%Z) None (frame_at 0) [])
            (frame_at 2) _)).
  reflexivity.
Defined.

(** ** C7: the order in which timers fire *)

Lemma div2_spec (n : nat) : 2 * (n / 2) <= n < 2 * (n / 2) + 2.
Proof.
  pose proof (Nat.div_mod_eq n 2). pose proof (Nat.mod_upper_bound n 2). lia.
Qed.

(** Linear arithmetic with halves. *)
Ltac halves :=
  repeat match goal with
         | |- context [?n / 2] =>
             pose proof (div2_spec n); let q := fresh "q" in set (q := n / 2) in *; clearbody q
         | _ : context [?n / 2] |- _ =>
             pose proof (div2_spec n); let q := fresh "q" in set (q := n / 2) in *; clearbody q
         end;
  lia.

(** Exchanging the contents of two positions permutes the list. *)
Lemma insert_head_Permutation {A} (l : list A) (j : nat) (x y : A) :
  l !! j = Some y -> y :: <[j := x]> l ≡ₚ x :: l.
Proof.
  revert j. induction l as [|b l IH]; intros [|j] Hj; simplify_eq/=.
  - apply perm_swap.
  - rewrite perm_swap. rewrite (IH j Hj). apply perm_swap.
Qed.

Lemma insert_swap_Permutation {A} (l : list A) (i j : nat) (x y : A) :
  l !! i = Some x -> l !! j = Some y -> <[i := y]> (<[j := x]> l) ≡ₚ l.
Proof.
  revert i j. induction l as [|a l IH]; intros [|i] [|j] Hi Hj; simplify_eq/=.
  - reflexivity.
  - by apply insert_head_Permutation.
  - by apply insert_head_Permutation.
  - f_equiv. by apply IH.
Qed.

Section HeapOrder.
Context {T : Type} `{Inhabited T}.
Variable key : T -> Z.
Variable comp : T -> T -> bool.
Hypothesis comp_key : ∀ a b, comp a b = (key b <? key a)%Z.

(** Moving the value of position [q] into the hole [h] and the hole to
    [q] keeps the elements. *)
Lemma move_hole_Permutation (c : list T) (h q : nat) (value : T) :
  h < length c -> q < length c -> h ≠ q ->
  <[q := value]> (<[h := c !!! q]> c) ≡ₚ <[h := value]> c.
Proof using Type.
  intros Hh Hq Hne.
  rewrite <- (insert_swap_Permutation (<[h := value]> c) q h (c !!! q) value).
  - by rewrite list_insert_insert_eq.
  - rewrite list_lookup_insert_ne by done. by apply list_lookup_lookup_total_lt.
  - by apply list_lookup_insert_eq.
Qed.

(** The last assignment of [__push_heap], [*(first + holeIndex) = value],
    when the loop has stopped. *)
Lemma fill_hole_heap (c : list T) (hole n : nat) (value : T) :
  hole < n -> n <= length c ->
  (∀ i, 0 < i < n -> i ≠ hole ->
        (key (c !!! ((i - 1) / 2)%nat) <= key (c !!! i))%Z) ->
  (∀ i, 0 < i < n -> (i - 1) / 2 = hole -> (key value <= key (c !!! i))%Z) ->
  (0 < hole -> (key (c !!! ((hole - 1) / 2)%nat) <= key value)%Z) ->
  heap_upto key (<[hole := value]> c) n.
Proof using Type.
  intros Hh Hn H1 H2 Hp i Hi.
  destruct (decide (i = hole)) as [->|Hne].
  - rewrite list_lookup_total_insert_eq by lia.
    rewrite list_lookup_total_insert_ne by halves. apply Hp. lia.
  - rewrite (list_lookup_total_insert_ne _ hole i) by done.
    destruct (decide ((i - 1) / 2 = hole)) as [Hq|Hq].
    + rewrite Hq, list_lookup_total_insert_eq by lia. by apply H2.
    + rewrite list_lookup_total_insert_ne by done. by apply H1.
Qed.

(** [__push_heap] started at a hole whose children are not smaller than
    [value] and than the parent of the hole, in a vector that is a heap
    but for the hole: the result is a heap with [value] in it. *)
Lemma push_heap_loop_spec (turns : nat) :
  ∀ (c : list T) (hole n : nat) (value : T),
    hole <= turns -> hole < n -> n <= length c ->
    (∀ i, 0 < i < n -> i ≠ hole ->
          (key (c !!! ((i - 1) / 2)%nat) <= key (c !!! i))%Z) ->
    (∀ i, 0 < i < n -> (i - 1) / 2 = hole -> (key value <= key (c !!! i))%Z) ->
    (0 < hole -> ∀ i, 0 < i < n -> (i - 1) / 2 = hole ->
                      (key (c !!! ((hole - 1) / 2)%nat) <= key (c !!! i))%Z) ->
    heap_upto key (push_heap_loop comp turns c hole 0 value) n ∧
    length (push_heap_loop comp turns c hole 0 value) = length c ∧
    push_heap_loop comp turns c hole 0 value ≡ₚ <[hole := value]> c ∧
    (∀ j, n <= j -> push_heap_loop comp turns c hole 0 value !!! j = c !!! j).
Proof using comp_key.
  induction turns as [|turns IH]; intros c hole n value Ht Hh Hn H1 H2 H3.
  - cbn [push_heap_loop]. split; [|split; [|split]].
    + apply fill_hole_heap; try done. lia.
    + apply length_insert.
    + reflexivity.
    + intros j Hj. apply list_lookup_total_insert_ne. lia.
  - cbn [push_heap_loop].
    destruct ((0 <? hole) && comp (c !!! ((hole - 1) / 2)) value) eqn:Hcond.
    + apply andb_true_iff in Hcond as [Hpos Hlt].
      apply Nat.ltb_lt in Hpos. rewrite comp_key in Hlt. apply Z.ltb_lt in Hlt.
      set (q := (hole - 1) / 2) in *.
      assert (Hq : q < hole) by (unfold q; halves).
      destruct (IH (<[hole := c !!! q]> c) q n value) as (I1 & I2 & I3 & I4).
      * lia.
      * lia.
      * by rewrite length_insert.
      * intros i Hi Hne.
        destruct (decide (i = hole)) as [->|Hih].
        -- fold q. rewrite list_lookup_total_insert_eq by lia.
           rewrite list_lookup_total_insert_ne by lia. lia.
        -- rewrite (list_lookup_total_insert_ne _ hole i) by done.
           destruct (decide ((i - 1) / 2 = hole)) as [Hp|Hp].
           ++ rewrite Hp, list_lookup_total_insert_eq by lia. by apply H3.
           ++ rewrite list_lookup_total_insert_ne by done. by apply H1.
      * intros i Hi Hp.
        destruct (decide (i = hole)) as [->|Hih].
        -- rewrite list_lookup_total_insert_eq by lia. lia.
        -- rewrite list_lookup_total_insert_ne by done.
           specialize (H1 i Hi Hih). rewrite Hp in H1. lia.
      * intros Hq0 i Hi Hp.
        rewrite (list_lookup_total_insert_ne _ hole ((q - 1) / 2)) by halves.
        assert (Hg : (key (c !!! ((q - 1) / 2)%nat) <= key (c !!! q))%Z).
        { apply H1; lia. }
        destruct (decide (i = hole)) as [->|Hih].
        -- by rewrite list_lookup_total_insert_eq by lia.
        -- rewrite list_lookup_total_insert_ne by done.
           specialize (H1 i Hi Hih). rewrite Hp in H1. lia.
      * split; [exact I1|]. split; [by rewrite I2, length_insert|]. split.
        -- rewrite I3. apply move_hole_Permutation; lia.
        -- intros j Hj. rewrite I4 by done. apply list_lookup_total_insert_ne. lia.
    + split; [|split; [|split]].
      * apply fill_hole_heap; try done. intros Hpos.
        apply andb_false_iff in Hcond as [Hc|Hc].
        -- apply Nat.ltb_ge in Hc. lia.
        -- rewrite comp_key in Hc. apply Z.ltb_ge in Hc. exact Hc.
      * apply length_insert.
      * reflexivity.
      * intros j Hj. apply list_lookup_total_insert_ne. lia.
Qed.

(** The first loop of [__adjust_heap]: the hole goes down along the
    smaller children until it has fewer than two children; the vector
    stays a heap. *)
Lemma adjust_heap_loop_spec (turns : nat) :
  ∀ (c : list T) (hole len : nat) (value : T),
    len <= hole + turns -> hole < len -> len <= length c ->
    heap_upto key c len ->
    ∃ c' hole',
      adjust_heap_loop comp turns c hole hole len = (c', hole', hole') ∧
      hole' < len ∧ ¬ hole' < (len - 1) / 2 ∧
      heap_upto key c' len ∧ length c' = length c ∧
      <[hole' := value]> c' ≡ₚ <[hole := value]> c ∧
      (∀ j, len <= j -> c' !!! j = c !!! j).
Proof using comp_key.
  induction turns as [|turns IH]; intros c hole len value Ht Hh Hn Hheap; [lia|].
  cbn [adjust_heap_loop].
  destruct (hole <? (len - 1) / 2) eqn:Hcond.
  - apply Nat.ltb_lt in Hcond.
    set (s := if comp (c !!! (2 * (hole + 1))) (c !!! (2 * (hole + 1) - 1))
              then 2 * (hole + 1) - 1 else 2 * (hole + 1)).
    assert (Hs : (s = 2 * hole + 1 ∨ s = 2 * hole + 2) ∧ s < len ∧
                 (key (c !!! s) <= key (c !!! (2 * hole + 1)%nat))%Z ∧
                 (key (c !!! s) <= key (c !!! (2 * hole + 2)%nat))%Z).
    { unfold s. rewrite comp_key.
      replace (2 * (hole + 1) - 1) with (2 * hole + 1) by lia.
      replace (2 * (hole + 1)) with (2 * hole + 2) by lia.
      destruct (Z.ltb_spec (key (c !!! (2 * hole + 1))) (key (c !!! (2 * hole + 2))));
        (split; [lia|split; [halves|lia]]). }
    destruct Hs as (Hs & Hslen & Hs1 & Hs2).
    assert (Hps : (s - 1) / 2 = hole) by halves.
    destruct (IH (<[hole := c !!! s]> c) s len value)
      as (c' & hole' & E & I1 & I2 & I3 & I4 & I5 & I6).
    + lia.
    + lia.
    + by rewrite length_insert.
    + intros i Hi.
      destruct (decide (i = hole)) as [->|Hih].
      * rewrite list_lookup_total_insert_eq by lia.
        rewrite list_lookup_total_insert_ne by halves.
        pose proof (Hheap hole Hi) as Hup.
        assert (Hdown : (key (c !!! ((s - 1) / 2)%nat) <= key (c !!! s))%Z)
          by (apply Hheap; lia).
        rewrite Hps in Hdown. lia.
      * rewrite (list_lookup_total_insert_ne _ hole i) by done.
        destruct (decide ((i - 1) / 2 = hole)) as [Hp|Hp].
        -- rewrite Hp, list_lookup_total_insert_eq by lia.
           assert (i = 2 * hole + 1 ∨ i = 2 * hole + 2) as [-> | ->] by halves; done.
        -- rewrite list_lookup_total_insert_ne by done. by apply Hheap.
    + exists c', hole'. split; [exact E|]. split; [exact I1|]. split; [exact I2|].
      split; [exact I3|]. split; [by rewrite I4, length_insert|]. split.
      * rewrite I5. apply move_hole_Permutation; lia.
      * intros j Hj. rewrite I6 by done. apply list_lookup_total_insert_ne. lia.
  - apply Nat.ltb_ge in Hcond. exists c, hole.
    split; [reflexivity|]. split; [done|]. split; [lia|]. done.
Qed.

(** [__adjust_heap] on a heap of [len >= 1] elements, from the root, with
    the value to put back: a heap of the same elements but for the root,
    which [value] replaces. *)
Lemma adjust_heap_spec (c : list T) (len : nat) (value : T) :
  0 < len -> len <= length c -> heap_upto key c len ->
  heap_upto key (__adjust_heap comp c 0 len value) len ∧
  length (__adjust_heap comp c 0 len value) = length c ∧
  __adjust_heap comp c 0 len value ≡ₚ <[0 := value]> c ∧
  (∀ j, len <= j -> __adjust_heap comp c 0 len value !!! j = c !!! j).
Proof using comp_key.
  intros Hlen Hn Hheap. unfold __adjust_heap.
  destruct (adjust_heap_loop_spec len c 0 len value)
    as (c1 & hole1 & E & I1 & I2 & I3 & I4 & I5 & I6); try done; try lia.
  rewrite E.
  destruct (Nat.even len && (hole1 =? (len - 2) / 2)) eqn:Hcond.
  - apply andb_true_iff in Hcond as [Heven Heq].
    apply Nat.even_spec in Heven. destruct Heven as [m Hm].
    apply Nat.eqb_eq in Heq.
    assert (Hlast : 2 * (hole1 + 1) - 1 = len - 1) by halves.
    assert (Hh1 : hole1 < len - 1) by halves.
    rewrite Hlast. unfold __push_heap.
    destruct (push_heap_loop_spec (len - 1) (<[hole1 := c1 !!! (len - 1)]> c1) (len - 1)
                len value) as (P1 & P2 & P3 & P4).
    + lia.
    + lia.
    + rewrite length_insert. lia.
    + intros i Hi Hne.
      destruct (decide (i = hole1)) as [->|Hih].
      * rewrite list_lookup_total_insert_eq by lia.
        rewrite list_lookup_total_insert_ne by halves.
        pose proof (I3 hole1 Hi) as Hup.
        assert (Hdown : (key (c1 !!! ((len - 1 - 1) / 2)%nat) <= key (c1 !!! (len - 1)%nat))%Z)
          by (apply I3; lia).
        replace ((len - 1 - 1) / 2) with hole1 in Hdown by halves. lia.
      * rewrite (list_lookup_total_insert_ne _ hole1 i) by done.
        destruct (decide ((i - 1) / 2 = hole1)) as [Hp|Hp].
        -- assert (i = len - 1) by halves. lia.
        -- rewrite list_lookup_total_insert_ne by done. by apply I3.
    + intros i Hi Hp. halves.
    + intros _ i Hi Hp. halves.
    + split; [exact P1|]. split; [by rewrite P2, length_insert, I4|]. split.
      * rewrite P3, <- I5. apply move_hole_Permutation; lia.
      * intros j Hj. rewrite P4 by done.
        rewrite list_lookup_total_insert_ne by lia. by apply I6.
  - unfold __push_heap.
    assert (Hleaf : ∀ i, 0 < i < len -> (i - 1) / 2 ≠ hole1).
    { intros i Hi Hp. apply andb_false_iff in Hcond as [Hc|Hc].
      - assert (Hodd : Nat.odd len = true)
          by (rewrite <- Nat.negb_even, Hc; reflexivity).
        apply Nat.odd_spec in Hodd. destruct Hodd as [m Hm]. halves.
      - apply Nat.eqb_neq in Hc. halves. }
    destruct (push_heap_loop_spec hole1 c1 hole1 len value) as (P1 & P2 & P3 & P4).
    + lia.
    + lia.
    + lia.
    + intros i Hi _. by apply I3.
    + intros i Hi Hp. by destruct (Hleaf i Hi).
    + intros _ i Hi Hp. by destruct (Hleaf i Hi).
    + split; [exact P1|]. split; [by rewrite P2|]. split.
      * by rewrite P3.
      * intros j Hj. rewrite P4 by done. by apply I6.
Qed.

(** The root of a heap is a least element. *)
Lemma heap_root_least (c : list T) (n : nat) :
  heap_upto key c n -> ∀ i, i < n -> (key (c !!! 0%nat) <= key (c !!! i))%Z.
Proof using Type.
  intros Hheap i. induction (lt_wf i) as [i _ IH]. intros Hi.
  destruct (decide (i = 0)) as [->|Hne]; [lia|].
  assert (Hp : (i - 1) / 2 < i) by halves.
  specialize (IH _ Hp ltac:(lia)). specialize (Hheap i ltac:(lia)). lia.
Qed.

(** [priority_queue::push] keeps the heap and adds the element. *)
Lemma priority_queue_push_spec (x : T) (c : list T) :
  heap_upto key c (length c) ->
  heap_upto key (priority_queue_push comp x c) (length (priority_queue_push comp x c)) ∧
  priority_queue_push comp x c ≡ₚ x :: c.
Proof using comp_key.
  intros Hheap. unfold priority_queue_push, push_heap, __push_heap.
  rewrite length_app. cbn [length].
  replace (length c + 1 - 1) with (length c) by lia.
  destruct (push_heap_loop_spec (length c) (c ++ [x]) (length c) (length c + 1)
              ((c ++ [x]) !!! length c)) as (P1 & P2 & P3 & _).
  - lia.
  - lia.
  - rewrite length_app. cbn [length]. lia.
  - intros i Hi Hne. rewrite !lookup_total_app_l by halves. apply Hheap. lia.
  - intros i Hi Hp. halves.
  - intros _ i Hi Hp. halves.
  - split.
    + rewrite P2, length_app. cbn [length]. exact P1.
    + rewrite P3. rewrite list_insert_id.
      * by rewrite Permutation_app_comm.
      * apply list_lookup_lookup_total_lt. rewrite length_app. cbn [length]. lia.
Qed.

Lemma last_lookup_total (l : list T) (d : T) :
  l ≠ [] -> List.last l d = l !!! (length l - 1).
Proof using Type.
  induction l as [|a l IH]; [done|]. intros _.
  destruct l as [|b l]; [reflexivity|].
  transitivity (List.last (b :: l) d); [reflexivity|].
  rewrite IH by done. cbn [length].
  replace (S (S (length l)) - 1) with (S (S (length l) - 1)) by lia. reflexivity.
Qed.

(** [priority_queue::pop] on a non-empty heap removes the root and keeps
    the heap. *)
Lemma priority_queue_pop_spec (c : list T) :
  c ≠ [] ->
  heap_upto key c (length c) ->
  heap_upto key (priority_queue_pop comp c) (length (priority_queue_pop comp c)) ∧
  c ≡ₚ priority_queue_top c :: priority_queue_pop comp c.
Proof using comp_key.
  intros Hne Hheap.
  assert (Hlen : 0 < length c) by (destruct c; [done|cbn; lia]).
  assert (Hpop : ∃ c', pop_heap comp c = c' ∧ length c' = length c ∧ c' ≡ₚ c ∧
                       c' !!! (length c - 1) = c !!! 0 ∧ heap_upto key c' (length c - 1)).
  { unfold pop_heap. destruct (1 <? length c) eqn:Hl.
    - apply Nat.ltb_lt in Hl.
      destruct (adjust_heap_spec (<[length c - 1 := c !!! 0]> c) (length c - 1)
                  (c !!! (length c - 1))) as (A1 & A2 & A3 & A4).
      + lia.
      + rewrite length_insert. lia.
      + intros i Hi. rewrite !list_lookup_total_insert_ne by halves. apply Hheap. lia.
      + eexists. split; [reflexivity|]. split; [by rewrite A2, length_insert|]. split.
        * rewrite A3. rewrite (list_insert_insert_ne _ 0) by lia.
          apply insert_swap_Permutation; apply list_lookup_lookup_total_lt; lia.
        * split; [|exact A1]. rewrite A4 by lia.
          apply list_lookup_total_insert_eq. lia.
    - apply Nat.ltb_ge in Hl. exists c. split; [reflexivity|]. split; [reflexivity|].
      split; [reflexivity|]. split.
      + by replace (length c - 1) with 0 by lia.
      + intros i Hi. lia. }
  destruct Hpop as (c' & E & L & Pm & Hlast & Hheap').
  unfold priority_queue_pop, priority_queue_top. rewrite E.
  assert (Hc' : c' = removelast c' ++ [c !!! 0]).
  { assert (Hne' : c' ≠ []) by (intros ->; cbn in L; lia).
    rewrite (app_removelast_last (c !!! 0) Hne') at 1. f_equal. f_equal.
    by rewrite last_lookup_total, L. }
  assert (Hlr : length (removelast c') = length c - 1).
  { apply (f_equal length) in Hc'. rewrite length_app in Hc'. cbn [length] in Hc'. lia. }
  split.
  - rewrite Hlr. intros i Hi. specialize (Hheap' i Hi).
    rewrite Hc' in Hheap'. rewrite !lookup_total_app_l in Hheap' by (rewrite Hlr; halves).
    exact Hheap'.
  - transitivity c'; [by symmetry|]. rewrite Hc' at 1.
    apply (Permutation_app_comm (removelast c') [c !!! 0]).
Qed.

(** Draining a heap gives its elements in nondecreasing order of key. *)
Lemma drain_spec (turns : nat) :
  ∀ c : list T,
    length c <= turns -> heap_upto key c (length c) ->
    drain comp turns c ≡ₚ c ∧
    StronglySorted (fun a b => (key a <= key b)%Z) (drain comp turns c).
Proof using comp_key.
  induction turns as [|turns IH]; intros c Hl Hheap.
  - destruct c; [|cbn in Hl; lia]. split; [reflexivity|constructor].
  - destruct c as [|a c]; [split; [reflexivity|constructor]|].
    cbn [drain].
    destruct (priority_queue_pop_spec (a :: c)) as (Hh & Hp); [done|done|].
    assert (Hlen : length (priority_queue_pop comp (a :: c)) = length c).
    { apply Permutation_length in Hp. cbn [length] in Hp. lia. }
    destruct (IH (priority_queue_pop comp (a :: c))) as (IP & IS).
    + cbn [length] in Hl. lia.
    + exact Hh.
    + split; [by rewrite IP, <- Hp|].
      constructor; [exact IS|].
      rewrite IP. apply Forall_forall. intros b Hb.
      assert (Hin : b ∈ a :: c) by (rewrite Hp; by right).
      apply list_elem_of_lookup_total in Hin as (i & Hi & <-).
      by apply (heap_root_least (a :: c) (length (a :: c))).
Qed.
End HeapOrder.

Lemma greater_expire_time (a b : TimerEntry) :
  greater a b = (expire_time b <? expire_time a)%Z.
Proof. reflexivity. Qed.

(** [timers] is a heap by [expire_time] holding the registered entries. *)
Lemma add_timers_spec (regs : list (Z * coroutine_handle)) :
  ∀ l : Loop,
    heap_upto expire_time (timers l) (length (timers l)) ->
    heap_upto expire_time (timers (add_timers regs l)) (length (timers (add_timers regs l))) ∧
    timers (add_timers regs l) ≡ₚ timers l ++ entries regs.
Proof.
  induction regs as [|[time h] regs IH]; intros l Hheap.
  - split; [exact Hheap|]. cbn. by rewrite app_nil_r.
  - destruct (priority_queue_push_spec expire_time greater greater_expire_time
                {| expire_time := time; handle := h |} (timers l) Hheap) as (P1 & P2).
    destruct (IH (add_timer time h l) P1) as (I1 & I2).
    split; [exact I1|].
    change (add_timers ((time, h) :: regs) l) with (add_timers regs (add_timer time h l)).
    rewrite I2. cbn [add_timer timers entries fmap list_fmap fst snd].
    rewrite P2. rewrite <- app_comm_cons. apply Permutation_middle.
Qed.

(** C7, as stated, fails on ties: four timers with the same expiry time,
    registered for the frames 0, 1, 2, 3 in that order, fire in the order
    0, 2, 1, 3. *)
Lemma timers_fire_order_counterexample :
  handle <$>
    fire_order (add_timers [(1%Z, frame_at 0); (1%Z, frame_at 1);
                            (1%Z, frame_at 2); (1%Z, frame_at 3)] Loop_default)
  = [frame_at 0; frame_at 2; frame_at 1; frame_at 3].
Proof. reflexivity. Qed.

(** C7, amended.  For any list of timers registered with [add_timer], the
    priority queue hands out exactly the registered entries, in
    nondecreasing order of expiry time; two timers with expiries
    [t1 < t2], registered [t2] first, fire [t1]'s frame before [t2]'s.
    Entries with equal expiry times fire in an order fixed by the heap,
    which need not be the order of registration. *)
Theorem timers_fire_by_expiry (regs : list (Z * coroutine_handle)) :
  fire_order (add_timers regs Loop_default) ≡ₚ entries regs ∧
  StronglySorted (fun a b => (expire_time a <= expire_time b)%Z)
    (fire_order (add_timers regs Loop_default)) ∧
  (∀ (t1 t2 : Z) (h1 h2 : coroutine_handle),
     (t1 < t2)%Z ->
     fire_order (add_timers [(t2, h2); (t1, h1)] Loop_default)
     = [{| expire_time := t1; handle := h1 |};
        {| expire_time := t2; handle := h2 |}]).
Proof.
  destruct (add_timers_spec regs Loop_default) as (Hheap & Hperm).
  { intros i Hi. cbn in Hi. lia. }
  destruct (drain_spec expire_time greater greater_expire_time
              (length (timers (add_timers regs Loop_default)))
              (timers (add_timers regs Loop_default))) as (D1 & D2); [lia|exact Hheap|].
  split; [|split].
  - unfold fire_order. by rewrite D1, Hperm.
  - exact D2.
  - intros t1 t2 h1 h2 Hlt.
    assert (E : (t1 <? t2)%Z = true) by by apply Z.ltb_lt.
    unfold fire_order, add_timers, add_timer, priority_queue_push, push_heap, __push_heap.
    cbn. unfold greater, TimerEntry_gt. cbn. rewrite E. reflexivity.
Qed.

Lemma timers_fire_by_expiry_witness :
  fire_order (add_timers [(2%Z, frame_at 0); (1%Z, frame_at 1)] Loop_default)
  = [{| expire_time := 1; handle := frame_at 1 |};
     {| expire_time := 2; handle := frame_at 0 |}].
Proof.
  assert (Hlt : (1 < 2)%Z) by lia.
  exact (proj2 (proj2 (timers_fire_by_expiry [])) 1%Z 2%Z (frame_at 1) (frame_at 0) Hlt).
Defined.

(** ** C8: ownership of the frame by its [Task] *)

Lemma coroutine_destroy_plain (a : nat) (fr : frame) (st : heap) :
  frames st !! a = Some fr ->
  plain_frame fr ->
  coroutine_destroy a st = Some (Heap (delete a (frames st)) (next_address st)).
Proof.
  intros Hl [Hp Hn]. unfold coroutine_destroy. cbn [destroy_frame].
  rewrite Hl. cbn [mbind option_bind]. rewrite Hn.
  destruct (point fr); try reflexivity. done.
Qed.

(** C8.  A [Task] owns its frame exclusively.
    - Copying is forbidden: the [Task] classes have no usable copy
      constructor or copy assignment.
    - The move constructor leaves the frame in the target and [nullptr] in
      the source; the move assignment releases what the target held, then
      does the same.
    - The destructor releases the frame of a non-null [Task] (the frame is
      no longer live) and touches nothing for a null one; so after a move,
      destroying source and target releases the frame once, and both
      destructors succeed. *)
Theorem Task_exclusive_ownership (this other : nat) (tasks : gmap nat coroutine_handle) (st : heap)
    (a : nat) (fr : frame) :
  this ≠ other ->
  tasks !! other = Some (frame_at a) ->
  frames st !! a = Some fr ->
  plain_frame fr ->
  (can_copy_construct Task_members = false ∧ can_copy_assign Task_members = false ∧
   can_copy_construct Task_members_deleted_move_assignment = false ∧
   can_copy_assign Task_members_deleted_move_assignment = false) ∧
  (∃ tasks',
     Task_move_constructor this other tasks = Some tasks' ∧
     tasks' !! this = Some (frame_at a) ∧ tasks' !! other = Some nullptr ∧
     (∀ i, i ≠ this -> i ≠ other -> tasks' !! i = tasks !! i) ∧
     ∃ tasks1 tasks2 st2,
       Task_destructor other tasks' st = Some (tasks1, st) ∧
       Task_destructor this tasks1 st = Some (tasks2, st2) ∧
       frames st2 !! a = None ∧
       (∀ i, i ≠ a -> frames st2 !! i = frames st !! i)) ∧
  (∀ old st1,
     tasks !! this = Some old ->
     Task_dtor coroutine_destroy old st = Some st1 ->
     ∃ tasks',
       Task_move_assignment this other tasks st = Some (tasks', st1) ∧
       tasks' !! this = Some (frame_at a) ∧ tasks' !! other = Some nullptr) ∧
  (Task_dtor coroutine_destroy (frame_at a) st
   = Some (Heap (delete a (frames st)) (next_address st)) ∧
   Task_dtor coroutine_destroy nullptr st = Some st).
Proof.
  intros Hne Ho Ha Hplain.
  assert (Hd : Task_dtor coroutine_destroy (frame_at a) st
               = Some (Heap (delete a (frames st)) (next_address st))).
  { cbn [Task_dtor handle_destroy handle_bool]. by apply (coroutine_destroy_plain a fr). }
  split; [repeat split|]. split; [|split; [|split; [exact Hd|reflexivity]]].
  - eexists. split; [unfold Task_move_constructor; rewrite Ho; reflexivity|].
    split; [by rewrite lookup_insert_ne, lookup_insert_eq|].
    split; [by rewrite lookup_insert_eq|].
    split; [intros i H1 H2; by rewrite !lookup_insert_ne|].
    eexists _, _, _. split; [|split; [|split]].
    + unfold Task_destructor. rewrite lookup_insert_eq. reflexivity.
    + unfold Task_destructor.
      rewrite lookup_delete_ne, lookup_insert_ne, lookup_insert_eq by done.
      cbn [mbind option_bind]. rewrite Hd. reflexivity.
    + cbn [frames]. apply lookup_delete_eq.
    + intros i Hi. cbn [frames]. by rewrite lookup_delete_ne.
  - intros old st1 Ht Hold. eexists. split.
    + unfold Task_move_assignment. rewrite decide_True by done.
      rewrite Ht, Ho. cbn [mbind option_bind]. rewrite Hold. reflexivity.
    + split; [by rewrite lookup_insert_ne, lookup_insert_eq|by rewrite lookup_insert_eq].
Qed.

Lemma Task_exclusive_ownership_witness :
  ∃ tasks', Task_move_constructor 1 0 one_task = Some tasks' ∧
            tasks' !! 1 = Some (frame_at 0) ∧ tasks' !! 0 = Some nullptr.
Proof.
  assert (H0 : 1 ≠ 0) by lia.
  assert (Hp : plain_frame (new_frame work)) by (split; [discriminate|reflexivity]).
  pose proof (Task_exclusive_ownership 1 0 one_task (snd (main_task work)) 0
              (new_frame work) H0 eq_refl eq_refl Hp) as H.
  destruct H as (_ & (tasks' & H1 & H2 & H3 & _) & _).
  exists tasks'. split; [exact H1|]. split; [exact H2|exact H3].
Defined.

(** Assigning a [Task] to itself changes nothing. *)
Lemma Task_move_assignment_self (this : nat) (tasks : gmap nat coroutine_handle) (st : heap) :
  Task_move_assignment this this tasks st = Some (tasks, st).
Proof.
  unfold Task_move_assignment. rewrite decide_False; [reflexivity|].
  intros H. by apply H.
Qed.

(** ** C9: the no-op sentinel *)

(** C9.  A frame is created with [previous] holding the no-op coroutine,
    which is not null and reports [done() == false].  When such a frame
    completes, [PreviousAwaiter::await_suspend] takes its first branch (it
    prints the "Climbing up" line) and returns [previous], the no-op handle:
    the same handle its other branch returns.  Resuming it changes nothing
    and returns to the driver. *)
Theorem noop_sentinel_completion (P : promise_type) (st : heap) (a : nat) (fr : frame) :
  final_suspend_awaiter P = PreviousAwaiter ->
  frames st !! a = Some fr ->
  previous fr = noop_coroutine ->
  (∀ b, previous (new_frame b) = noop_coroutine) ∧
  handle_bool noop_coroutine = true ∧
  handle_done st noop_coroutine = Some false ∧
  PreviousAwaiter_await_suspend st (previous fr)
  = Some ("- [PreviousAwaiter] Climbing up: resuming previous coroutine."%string,
          noop_coroutine) ∧
  snd <$> PreviousAwaiter_await_suspend st (previous fr)
  = snd <$> PreviousAwaiter_await_suspend st nullptr ∧
  final_suspend P a st = seg_transfer noop_coroutine (set_point a at_final_suspend st) ∧
  (∀ fuel st', resume P fuel noop_coroutine st' = Returned st').
Proof.
  intros HP Hl Hp. rewrite Hp. repeat split.
  - rewrite (final_suspend_PreviousAwaiter P a st fr HP Hl); rewrite Hp; done.
  - intros fuel st'. apply resume_noop.
Qed.

Lemma noop_sentinel_completion_witness :
  final_suspend Promise 0 (snd (main_task (co_return 1)))
  = seg_transfer noop_coroutine (set_point 0 at_final_suspend (snd (main_task (co_return 1)))).
Proof.
  refine (proj1 (proj2 (proj2 (proj2 (proj2 (proj2
    (noop_sentinel_completion Promise (snd (main_task (co_return 1))) 0
       (new_frame (co_return 1)) _ _ _))))))); reflexivity.
Defined.

(** ** C10: the value of an await whose callee stored nothing *)

(** C10.  When the awaiting frame [a] is resumed after its callee [c] has
    completed with an empty value slot, [CalleeAwaiter::await_resume]
    returns [value_or(0) = 0]: the await expression evaluates to 0 and the
    body goes on with it; nothing is raised. *)
Theorem await_resume_default_zero (P : promise_type)
    (nested_resume : coroutine_handle -> heap -> outcome) (bound : nat)
    (st : heap) (a c : nat) (fr fc : frame) (aw : awaiter_kind) (k : Z -> body) :
  aw = CalleeAwaiter ∨ aw = WorldTask_CalleeAwaiter ->
  frames st !! c = Some fc ->
  is_final (point fc) = true ->
  _value fc = None ->
  a ≠ c ->
  frames st !! a = Some fr ->
  point fr = at_co_await aw (frame_at c) k ->
  CalleeAwaiter_await_resume st (frame_at c) = Some 0%Z ∧
  await_resume aw st (frame_at c) = normal 0%Z ∧
  resume_frame P nested_resume bound a fr st
  = exec P nested_resume bound a (k 0%Z) (set_point a running st).
Proof.
  intros Haw Hc _ Hv Hne Ha Hp.
  assert (H1 : ∀ st', frames st' !! c = Some fc ->
                      CalleeAwaiter_await_resume st' (frame_at c) = Some 0%Z).
  { intros st' Hc'. unfold CalleeAwaiter_await_resume, Promise_get_value.
    rewrite Hc'. simpl. by rewrite Hv. }
  assert (H2 : ∀ st', frames st' !! c = Some fc -> await_resume aw st' (frame_at c) = normal 0%Z).
  { intros st' Hc'. destruct Haw as [-> | ->]; unfold await_resume; by rewrite (H1 st' Hc'). }
  split; [by apply H1|]. split; [by apply H2|].
  unfold resume_frame. rewrite Hp.
  rewrite H2; [reflexivity|].
  unfold set_point. by rewrite lookup_update_frame_ne.
Qed.

Lemma await_resume_default_zero_witness :
  CalleeAwaiter_await_resume callee_without_value (frame_at 1) = Some 0%Z.
Proof.
  refine (proj1 (await_resume_default_zero Promise (resume Promise 0) 0
            callee_without_value 0 1
            (Frame (at_co_await CalleeAwaiter (frame_at 1) co_return) None None
               noop_coroutine [frame_at 1])
            (Frame at_final_suspend None None (frame_at 0) [])
            CalleeAwaiter co_return _ _ _ _ _ _ _)); try reflexivity.
  - left; reflexivity.
  - lia.
Defined.

(** ** The loop of [main] *)

Example work_is_yields : work = yields [1; 2]%Z 3%Z.
Proof. reflexivity. Qed.

Lemma resume_frame_suspended_before (P : promise_type)
    (nested_resume : coroutine_handle -> heap -> outcome) (bound : nat)
    (a : nat) (b : body) (fr : frame) (st : heap) :
  suspended_before b (point fr) ->
  resume_frame P nested_resume bound a fr st
  = exec P nested_resume bound a b (set_point a running st).
Proof. intros [Hp|Hp]; unfold resume_frame; rewrite Hp; reflexivity. Qed.

(** One [resume()] of a frame that stands before [co_yield v; k], when
    [yield_value] returns [std::suspend_always]: the value is stored and
    the frame waits in the yield. *)
Lemma resume_yield_suspend_always (P : promise_type) (fuel : nat) (a : nat) (v : Z) (k : body)
    (pt : resume_point) (val : option Z) (x : option exn) (prev : coroutine_handle)
    (l : list coroutine_handle) (m : gmap nat frame) (n : nat) :
  yield_value_awaiter P = suspend_always ->
  suspended_before (co_yield v k) pt ->
  resume P (S fuel) (frame_at a) (Heap (<[a := Frame pt val x prev l]> m) n)
  = Returned (Heap (<[a := Frame (at_co_yield k) (Some v) x prev l]> m) n).
Proof.
  intros HP Hpt.
  erewrite resume_suspended; [reflexivity|apply lookup_insert_eq|].
  rewrite (resume_frame_suspended_before P _ _ a (co_yield v k)) by exact Hpt.
  rewrite exec_co_yield, HP.
  unfold Promise_yield_value, set_point, set_value. by rewrite !update_frame_top.
Qed.

(** One [resume()] of a frame that stands before [co_yield v; k], when
    [yield_value] returns [RepeatAwaiter]: the value is stored and control
    is transferred back into the frame at once. *)
Lemma resume_yield_RepeatAwaiter (P : promise_type) (fuel : nat) (a : nat) (v : Z) (k : body)
    (pt : resume_point) (val : option Z) (x : option exn) (prev : coroutine_handle)
    (l : list coroutine_handle) (m : gmap nat frame) (n : nat) :
  yield_value_awaiter P = RepeatAwaiter ->
  suspended_before (co_yield v k) pt ->
  resume P (S fuel) (frame_at a) (Heap (<[a := Frame pt val x prev l]> m) n)
  = resume P fuel (frame_at a) (Heap (<[a := Frame (at_co_yield k) (Some v) x prev l]> m) n).
Proof.
  intros HP Hpt.
  erewrite resume_transfer; [reflexivity|apply lookup_insert_eq|].
  rewrite (resume_frame_suspended_before P _ _ a (co_yield v k)) by exact Hpt.
  rewrite exec_co_yield, HP.
  unfold Promise_yield_value, set_point, set_value. rewrite !update_frame_top. fields.
  unfold RepeatAwaiter_await_suspend, handle_done. fields.
  rewrite lookup_insert_eq. reflexivity.
Qed.

(** One [resume()] of a frame that stands before [co_return r], owns no
    [Task] and was never awaited: the frame completes with [r] and the
    call returns, whatever the final awaiter. *)
Lemma resume_return_top_level (P : promise_type) (fuel : nat) (a : nat) (r : Z)
    (pt : resume_point) (val : option Z) (x : option exn) (m : gmap nat frame) (n : nat) :
  suspended_before (co_return r) pt ->
  resume P (S fuel) (frame_at a) (Heap (<[a := Frame pt val x noop_coroutine []]> m) n)
  = Returned (Heap (<[a := Frame at_final_suspend (Some r) x noop_coroutine []]> m) n).
Proof.
  intros Hpt.
  assert (Hseg : resume_frame P (resume P fuel) fuel a (Frame pt val x noop_coroutine [])
                   (Heap (<[a := Frame pt val x noop_coroutine []]> m) n)
                 = match final_suspend_awaiter P with
                   | final_suspend_always =>
                       seg_suspended
                         (Heap (<[a := Frame at_final_suspend (Some r) x noop_coroutine []]> m) n)
                   | PreviousAwaiter =>
                       seg_transfer noop_coroutine
                         (Heap (<[a := Frame at_final_suspend (Some r) x noop_coroutine []]> m) n)
                   end).
  { rewrite (resume_frame_suspended_before P _ _ a (co_return r)) by exact Hpt.
    rewrite exec_co_return.
    unfold Promise_return_value, set_point, set_value. rewrite !update_frame_top. fields.
    erewrite destroy_locals_nil; [|apply lookup_insert_eq|reflexivity].
    unfold set_locals. rewrite update_frame_top. fields.
    unfold final_suspend, set_point. rewrite update_frame_top. fields.
    rewrite lookup_insert_eq. destruct (final_suspend_awaiter P); reflexivity. }
  rewrite (resume_frame_at P fuel a _ _ (lookup_insert_eq _ _ _)), Hseg.
  destruct (final_suspend_awaiter P); [reflexivity|apply resume_noop].
Qed.

Lemma handle_done_insert (a : nat) (fr : frame) (m : gmap nat frame) (n : nat) :
  handle_done (Heap (<[a := fr]> m) n) (frame_at a) = Some (is_final (point fr)).
Proof. unfold handle_done. fields. by rewrite lookup_insert_eq. Qed.

Lemma Task_value_insert (a : nat) (fr : frame) (m : gmap nat frame) (n : nat) :
  Task_value (Heap (<[a := fr]> m) n) (frame_at a) = _value fr.
Proof. unfold Task_value. fields. by rewrite lookup_insert_eq. Qed.

Lemma suspended_before_not_final (b : body) (pt : resume_point) :
  suspended_before b pt -> is_final pt = false.
Proof. by intros [-> | ->]. Qed.

(** X1.  With [std::suspend_always] as the awaiter of [yield_value] (the
    promise type of the second program of simple-task.cc, and the
    alternative left as a comment in the first), the loop of [main] over a
    task that yields [vs] and returns [r], never awaited and owning no
    [Task], reads the yielded values in order and then the returned value,
    one per [resume()]: it makes [length vs + 1] turns and ends with the
    frame complete. *)
Theorem main_loop_suspend_always (P : promise_type) (vs : list Z) :
  ∀ (r : Z) (fuel turns : nat) (a : nat) (pt : resume_point) (val : option Z)
    (x : option exn) (m : gmap nat frame) (n : nat),
    yield_value_awaiter P = suspend_always ->
    suspended_before (yields vs r) pt ->
    main_loop P (S fuel) (length vs + 1 + turns) (frame_at a)
      (Heap (<[a := Frame pt val x noop_coroutine []]> m) n)
    = Some (Some <$> vs ++ [r],
            Heap (<[a := Frame at_final_suspend (Some r) x noop_coroutine []]> m) n).
Proof.
  induction vs as [|v vs IH]; intros r fuel turns a pt val x m n HP Hpt.
  - cbn [length Nat.add main_loop].
    rewrite handle_done_insert. fields. rewrite (suspended_before_not_final _ _ Hpt).
    rewrite (resume_return_top_level P _ a r) by exact Hpt.
    rewrite Task_value_insert.
    destruct turns; cbn [main_loop]; rewrite handle_done_insert; reflexivity.
  - cbn [length Nat.add main_loop].
    rewrite handle_done_insert. fields. rewrite (suspended_before_not_final _ _ Hpt).
    rewrite (resume_yield_suspend_always P fuel a v (yields vs r)) by done.
    rewrite (IH r) by (done || by right).
    rewrite Task_value_insert. reflexivity.
Qed.

Lemma main_loop_suspend_always_witness :
  fst <$> main_loop Promise_suspend_always 1 3 (fst (main_task work)) (snd (main_task work))
  = Some [Some 1%Z; Some 2%Z; Some 3%Z].
Proof.
  assert (H : suspended_before (yields [1; 2]%Z 3%Z) (at_initial_suspend work))
    by (left; reflexivity).
  pose proof (main_loop_suspend_always Promise_suspend_always [1; 2]%Z 3%Z 0 0 0
                (at_initial_suspend work) None None ∅ 1 eq_refl H) as E.
  change (main_loop Promise_suspend_always 1 3 (fst (main_task work)) (snd (main_task work))
          = Some (Some <$> [1; 2; 3]%Z,
                  Heap (<[0 := Frame at_final_suspend (Some 3%Z) None noop_coroutine []]> ∅) 1))
    in E.
  rewrite E. reflexivity.
Defined.

(** One [resume()] of a frame that stands before the yields of [vs] and the
    return of [r], when [yield_value] returns [RepeatAwaiter]: every yield
    resumes the frame at once, so the call returns only when the frame is
    complete and holds [r]. *)
Lemma resume_yields_RepeatAwaiter (P : promise_type) (vs : list Z) :
  ∀ (r : Z) (fuel : nat) (a : nat) (pt : resume_point) (val : option Z) (x : option exn)
    (m : gmap nat frame) (n : nat),
    yield_value_awaiter P = RepeatAwaiter ->
    suspended_before (yields vs r) pt ->
    resume P (length vs + 1 + fuel) (frame_at a)
      (Heap (<[a := Frame pt val x noop_coroutine []]> m) n)
    = Returned (Heap (<[a := Frame at_final_suspend (Some r) x noop_coroutine []]> m) n).
Proof.
  induction vs as [|v vs IH]; intros r fuel a pt val x m n HP Hpt.
  - by apply resume_return_top_level.
  - cbn [length Nat.add].
    rewrite (resume_yield_RepeatAwaiter P _ a v (yields vs r)) by done.
    apply (IH r); [done|by right].
Qed.

(** X2.  With [RepeatAwaiter] as the awaiter of [yield_value] (the promise
    type of [Task] in the first program of simple-task.cc), the loop of
    [main] makes one turn however many values the task yields: each
    [co_yield] stores its value and [RepeatAwaiter::await_suspend] hands
    control straight back to the coroutine, so the one [resume()] runs the
    body to its end, and the loop reads the returned value only. *)
Theorem main_loop_RepeatAwaiter (P : promise_type) (vs : list Z) (r : Z) (fuel turns : nat)
    (a : nat) (pt : resume_point) (val : option Z) (x : option exn) (m : gmap nat frame)
    (n : nat) :
  yield_value_awaiter P = RepeatAwaiter ->
  suspended_before (yields vs r) pt ->
  main_loop P (length vs + 1 + fuel) (S turns) (frame_at a)
    (Heap (<[a := Frame pt val x noop_coroutine []]> m) n)
  = Some ([Some r], Heap (<[a := Frame at_final_suspend (Some r) x noop_coroutine []]> m) n).
Proof.
  intros HP Hpt. cbn [main_loop].
  rewrite handle_done_insert. fields. rewrite (suspended_before_not_final _ _ Hpt).
  rewrite (resume_yields_RepeatAwaiter P vs r) by done.
  rewrite Task_value_insert.
  destruct turns; cbn [main_loop]; rewrite handle_done_insert; reflexivity.
Qed.

Lemma main_loop_RepeatAwaiter_witness :
  fst <$> main_loop Promise_RepeatAwaiter 3 1 (fst (main_task work)) (snd (main_task work))
  = Some [Some 3%Z].
Proof.
  assert (H : suspended_before (yields [1; 2]%Z 3%Z) (at_initial_suspend work))
    by (left; reflexivity).
  pose proof (main_loop_RepeatAwaiter Promise_RepeatAwaiter [1; 2]%Z 3%Z 0 0 0
                (at_initial_suspend work) None None ∅ 1 eq_refl H) as E.
  change (main_loop Promise_RepeatAwaiter 3 1 (fst (main_task work)) (snd (main_task work))
          = Some ([Some 3%Z],
                  Heap (<[0 := Frame at_final_suspend (Some 3%Z) None noop_coroutine []]> ∅) 1))
    in E.
  rewrite E. reflexivity.
Defined.

(** ** Awaiting a [WorldTask] *)

Lemma drive_done (nested_resume : coroutine_handle -> heap -> outcome) (bound : nat)
    (callee : coroutine_handle) (st : heap) :
  handle_done st callee = Some true ->
  drive nested_resume bound callee st = Returned st.
Proof. intros Hd. destruct bound; cbn [drive]; by rewrite Hd. Qed.

Lemma drive_step (nested_resume : coroutine_handle -> heap -> outcome) (bound : nat)
    (callee : coroutine_handle) (st st' : heap) :
  handle_done st callee = Some false ->
  nested_resume callee st = Returned st' ->
  drive nested_resume (S bound) callee st = drive nested_resume bound callee st'.
Proof. intros Hd Hr. cbn [drive]. by rewrite Hd, Hr. Qed.

(** The loop of [WorldTask::CalleeAwaiter::await_suspend] runs the callee
    through its yields: one turn per yield. *)
Lemma drive_yields (fuel : nat) (a c : nat) (fa : frame) (xc : option exn)
    (m : gmap nat frame) (n : nat) (last : body) (vs : list Z) :
  ∀ (bound : nat) (ptc : resume_point) (valc : option Z),
    suspended_before (yields_then vs last) ptc ->
    ∃ ptc' valc',
      suspended_before last ptc' ∧
      drive (resume Promise (S fuel)) (length vs + bound) (frame_at c)
        (awaiting_heap a c fa ptc valc xc m n)
      = drive (resume Promise (S fuel)) bound (frame_at c)
          (awaiting_heap a c fa ptc' valc' xc m n).
Proof.
  induction vs as [|v vs IH]; intros bound ptc valc Hpt.
  - exists ptc, valc. split; [exact Hpt|reflexivity].
  - destruct (IH bound (at_co_yield (yields_then vs last)) (Some v)) as (ptc' & valc' & H1 & H2);
      [by right|].
    exists ptc', valc'. split; [exact H1|].
    cbn [length Nat.add]. unfold awaiting_heap in *.
    erewrite drive_step; [exact H2| |].
    + rewrite handle_done_insert. fields. by rewrite (suspended_before_not_final _ _ Hpt).
    + by apply (resume_yield_suspend_always Promise fuel c v (yields_then vs last)).
Qed.

(** [co_await world_task] in frame [a] on a callee that has not run to its
    end: the frame is suspended at the await, becomes the callee's
    continuation, and the loop starts. *)
Lemma exec_co_await_WorldTask (fuel bound : nat) (a c : nat) (k : Z -> body)
    (pta : resume_point) (va : option Z) (xa : option exn) (preva : coroutine_handle)
    (la : list coroutine_handle) (ptc : resume_point) (valc : option Z) (xc : option exn)
    (prevc : coroutine_handle) (m : gmap nat frame) (n : nat) :
  a ≠ c ->
  is_final ptc = false ->
  exec Promise (resume Promise fuel) bound a
    (co_await WorldTask_CalleeAwaiter (frame_at c) k)
    (Heap (<[c := Frame ptc valc xc prevc []]> (<[a := Frame pta va xa preva la]> m)) n)
  = drive_result
      (drive (resume Promise fuel) bound (frame_at c)
         (awaiting_heap a c
            (Frame (at_co_await WorldTask_CalleeAwaiter (frame_at c) k) va xa preva la)
            ptc valc xc m n)).
Proof.
  intros Hne Hnf. rewrite exec_co_await.
  unfold await_ready. cbn [handle_bool]. rewrite handle_done_insert. fields. rewrite Hnf.
  unfold set_point. rewrite update_frame_under by done. fields.
  unfold await_suspend, WorldTask_CalleeAwaiter_await_suspend. fields.
  rewrite lookup_insert_eq. unfold set_previous. rewrite update_frame_top. fields.
  unfold awaiting_heap, drive_result. reflexivity.
Qed.

(** The callee's [co_return r] inside the loop: the value is stored and
    control passes to the awaiting frame, still inside [callee.resume()]. *)
Lemma resume_return_to_awaiting (fuel : nat) (a c : nat) (k : Z -> body) (r : Z)
    (va : option Z) (xa : option exn) (preva : coroutine_handle)
    (la : list coroutine_handle) (ptc : resume_point) (valc : option Z) (xc : option exn)
    (m : gmap nat frame) (n : nat) (aw : awaiter_kind) :
  a ≠ c ->
  suspended_before (co_return r) ptc ->
  let fa := Frame (at_co_await aw (frame_at c) k) va xa preva la in
  resume Promise (S fuel) (frame_at c) (awaiting_heap a c fa ptc valc xc m n)
  = resume Promise fuel (frame_at a) (awaiting_heap a c fa at_final_suspend (Some r) xc m n).
Proof.
  intros Hne Hpt fa. unfold awaiting_heap.
  eapply resume_transfer; [apply lookup_insert_eq|].
  rewrite (resume_frame_suspended_before _ _ _ _ (co_return r)) by exact Hpt.
  unfold set_point. rewrite update_frame_top. fields.
  rewrite exec_co_return_no_locals; [|reflexivity|].
  - cbn zeta. unfold continuation_runnable. fields.
    rewrite lookup_insert_ne by done. rewrite lookup_insert_eq. reflexivity.
  - unfold valid_handle. fields. rewrite lookup_insert_ne by done.
    rewrite lookup_insert_eq. by eexists.
Qed.

(** The awaiting frame resumed after its callee completed with a value:
    [await_resume] reads the value and the body goes on. *)
Lemma resume_frame_after_await (P : promise_type)
    (nested_resume : coroutine_handle -> heap -> outcome) (bound : nat) (a c : nat)
    (k : Z -> body) (r : Z) (va : option Z) (xa : option exn) (preva : coroutine_handle)
    (la : list coroutine_handle) (xc : option exn) (m : gmap nat frame) (n : nat) :
  a ≠ c ->
  let fa := Frame (at_co_await WorldTask_CalleeAwaiter (frame_at c) k) va xa preva la in
  resume_frame P nested_resume bound a fa
    (awaiting_heap a c fa at_final_suspend (Some r) xc m n)
  = exec P nested_resume bound a (k r)
      (awaiting_heap a c (Frame running va xa preva la) at_final_suspend (Some r) xc m n).
Proof.
  intros Hne fa. subst fa. unfold resume_frame, awaiting_heap. fields.
  unfold set_point. rewrite update_frame_under by done. fields.
  unfold await_resume, CalleeAwaiter_await_resume. fields.
  rewrite lookup_insert_eq. reflexivity.
Qed.

(** [auto world_task = f(); ... = co_await world_task;] in the resumed
    frame [a]: the frame of [f()] is created at the next address, [a] is
    suspended in the await and becomes its continuation, and the loop of
    [await_suspend] runs. *)
Lemma resume_spawn_await_WorldTask (fuel : nat) (a : nat) (callee : body) (k : Z -> body)
    (pta : resume_point) (va : option Z) (xa : option exn) (preva : coroutine_handle)
    (la : list coroutine_handle) (m : gmap nat frame) (n : nat) :
  a ≠ n ->
  suspended_before
    (spawn_task callee (fun world_task => co_await WorldTask_CalleeAwaiter world_task k)) pta ->
  resume Promise (S fuel) (frame_at a) (Heap (<[a := Frame pta va xa preva la]> m) n)
  = match
      drive (resume Promise fuel) fuel (frame_at n)
        (awaiting_heap a n
           (Frame (at_co_await WorldTask_CalleeAwaiter (frame_at n) k) va xa preva
              (la ++ [frame_at n]))
           (at_initial_suspend callee) None None m (S n))
    with
    | Raised _ _ => Terminated
    | o => o
    end.
Proof.
  intros Hne Hpt.
  erewrite resume_frame_at by apply lookup_insert_eq.
  rewrite (resume_frame_suspended_before _ _ _ _
             (spawn_task callee
                (fun world_task => co_await WorldTask_CalleeAwaiter world_task k)))
    by exact Hpt.
  unfold set_point. rewrite update_frame_top. fields.
  rewrite exec_spawn_task. fields. rewrite lookup_insert_eq.
  unfold create, new_frame. fields.
  unfold set_locals. rewrite update_frame_under by done. fields.
  rewrite exec_co_await_WorldTask by done.
  destruct (drive _ _ _ _); cbn [drive_result]; try reflexivity.
  apply resume_noop.
Qed.

(** [co_yield v] in the awaiting frame, which lies under its callee. *)
Lemma exec_co_yield_under (nested_resume : coroutine_handle -> heap -> outcome)
    (bound : nat) (a c : nat) (v : Z) (k : body) (fa fc : frame) (m : gmap nat frame)
    (n : nat) :
  a ≠ c ->
  exec Promise nested_resume bound a (co_yield v k) (Heap (<[c := fc]> (<[a := fa]> m)) n)
  = seg_suspended
      (Heap (<[c := fc]>
               (<[a := Frame (at_co_yield k) (Some v) (exception fa) (previous fa) (locals fa)]>
                  m)) n).
Proof.
  intros Hne. rewrite exec_co_yield. cbn [Promise yield_value_awaiter].
  unfold Promise_yield_value, set_value, set_point.
  rewrite !update_frame_under by done. reflexivity.
Qed.

(** X3.  [WorldTask::CalleeAwaiter::await_suspend] runs the awaited
    coroutine to its end, whatever the number of its yields.  A coroutine
    of the shape of [hello()], [auto world_task = f(); ... = co_await
    world_task;] followed by a [co_yield], whose callee yields [vs] and
    returns [r], is resumed once: the call returns with the callee complete
    and holding [r], still owned by the awaiting coroutine, which is
    already suspended in its next [co_yield].  The value of the await is
    [r]; none of the values yielded by the callee reaches the awaiting
    coroutine.  The awaiting coroutine was resumed by the callee's final
    suspend, inside the loop, before [await_suspend] returned. *)
Theorem WorldTask_await_runs_callee_to_completion (vs : list Z) (r : Z) (fuel : nat)
    (a : nat) (k : Z -> body) (v : Z) (k' : body)
    (pta : resume_point) (va : option Z) (xa : option exn) (preva : coroutine_handle)
    (la : list coroutine_handle) (m : gmap nat frame) (n : nat) :
  a ≠ n ->
  suspended_before
    (spawn_task (yields vs r)
       (fun world_task => co_await WorldTask_CalleeAwaiter world_task k)) pta ->
  k r = co_yield v k' ->
  resume Promise (length vs + 3 + fuel) (frame_at a)
    (Heap (<[a := Frame pta va xa preva la]> m) n)
  = Returned
      (Heap (<[n := Frame at_final_suspend (Some r) None (frame_at a) []]>
               (<[a := Frame (at_co_yield k') (Some v) xa preva (la ++ [frame_at n])]> m))
         (S n)).
Proof.
  intros Hne Hpta Hk.
  replace (length vs + 3 + fuel) with (S (length vs + S (S fuel))) by lia.
  rewrite (resume_spawn_await_WorldTask _ a (yields vs r) k) by done.
  replace (length vs + S (S fuel)) with (S (S (length vs + fuel))) at 1 by lia.
  destruct (drive_yields (S (length vs + fuel)) a n
              (Frame (at_co_await WorldTask_CalleeAwaiter (frame_at n) k) va xa preva
                 (la ++ [frame_at n]))
              None m (S n) (co_return r) vs (S (S fuel))
              (at_initial_suspend (yields vs r)) None)
    as (ptc' & valc' & Hpt' & ->); [by left|].
  erewrite drive_step; cycle 1.
  - unfold awaiting_heap. rewrite handle_done_insert. fields.
    by rewrite (suspended_before_not_final _ _ Hpt').
  - rewrite (resume_return_to_awaiting _ a n k r) by done.
    eapply resume_suspended.
    + unfold awaiting_heap. fields. rewrite lookup_insert_ne by done. apply lookup_insert_eq.
    + rewrite resume_frame_after_await by done. rewrite Hk.
      unfold awaiting_heap. rewrite exec_co_yield_under by done. fields. reflexivity.
  - rewrite drive_done; [reflexivity|]. by rewrite handle_done_insert.
Qed.

Lemma WorldTask_await_runs_callee_to_completion_witness :
  resume Promise 5 (fst (main_task hello)) (snd (main_task hello))
  = Returned
      (Heap (<[1 := Frame at_final_suspend (Some 42%Z) None (frame_at 0) []]>
               (<[0 := Frame (at_co_yield (co_yield 100 (co_return 200))) (Some 42%Z) None
                         noop_coroutine [frame_at 1]]> ∅)) 2).
Proof.
  apply (WorldTask_await_runs_callee_to_completion [1; 2]%Z 42%Z 0 0
           (fun val1 => co_yield val1 (co_yield 100 (co_return 200))) 42%Z
           (co_yield 100 (co_return 200))).
  - lia.
  - left. reflexivity.
  - reflexivity.
Defined.

Lemma drive_raised (nested_resume : coroutine_handle -> heap -> outcome) (bound : nat)
    (callee : coroutine_handle) (st st' : heap) (e : exn) :
  handle_done st callee = Some false ->
  nested_resume callee st = Raised e st' ->
  drive nested_resume (S bound) callee st = Terminated.
Proof. intros Hd Hr. cbn [drive]. by rewrite Hd, Hr. Qed.

(** A coroutine of the second program whose body throws: the locals are
    unwound and [unhandled_exception]'s [throw;] passes the exception to
    whoever called [resume()]. *)
Lemma resume_throw_rethrow (P : promise_type) (fuel : nat) (c : nat) (e : exn)
    (ptc : resume_point) (valc : option Z) (xc : option exn) (prevc : coroutine_handle)
    (m : gmap nat frame) (n : nat) :
  unhandled_exception P = rethrow ->
  suspended_before (throw e) ptc ->
  resume P (S fuel) (frame_at c) (Heap (<[c := Frame ptc valc xc prevc []]> m) n)
  = Raised e (Heap (<[c := Frame at_final_suspend valc xc prevc []]> m) n).
Proof.
  intros HP Hpt.
  erewrite resume_frame_at by apply lookup_insert_eq.
  rewrite (resume_frame_suspended_before _ _ _ _ (throw e)) by exact Hpt.
  unfold set_point. rewrite update_frame_top. fields.
  rewrite exec_throw. unfold unhandled.
  erewrite destroy_locals_nil; [|apply lookup_insert_eq|reflexivity].
  rewrite HP. unfold set_locals, set_point. rewrite !update_frame_top. reflexivity.
Qed.

(** X4.  An exception that leaves the body of the awaited coroutine ends
    the program.  [Promise::unhandled_exception] is [throw;], so the
    exception leaves [callee.resume()] inside
    [WorldTask::CalleeAwaiter::await_suspend], which is [noexcept]:
    [std::terminate] is called, whatever the callee yielded before and
    whatever the awaiting coroutine would have done next. *)
Theorem WorldTask_await_throwing_callee_terminates (vs : list Z) (e : exn) (fuel : nat)
    (a : nat) (k : Z -> body)
    (pta : resume_point) (va : option Z) (xa : option exn) (preva : coroutine_handle)
    (la : list coroutine_handle) (m : gmap nat frame) (n : nat) :
  a ≠ n ->
  suspended_before
    (spawn_task (yields_then vs (throw e))
       (fun world_task => co_await WorldTask_CalleeAwaiter world_task k)) pta ->
  resume Promise (length vs + 2 + fuel) (frame_at a)
    (Heap (<[a := Frame pta va xa preva la]> m) n)
  = Terminated.
Proof.
  intros Hne Hpta.
  replace (length vs + 2 + fuel) with (S (length vs + S fuel)) by lia.
  rewrite (resume_spawn_await_WorldTask _ a (yields_then vs (throw e)) k) by done.
  replace (length vs + S fuel) with (S (length vs + fuel)) at 1 by lia.
  destruct (drive_yields (length vs + fuel) a n
              (Frame (at_co_await WorldTask_CalleeAwaiter (frame_at n) k) va xa preva
                 (la ++ [frame_at n]))
              None m (S n) (throw e) vs (S fuel)
              (at_initial_suspend (yields_then vs (throw e))) None)
    as (ptc' & valc' & Hpt' & ->); [by left|].
  erewrite drive_raised; [reflexivity| |].
  - unfold awaiting_heap. rewrite handle_done_insert. fields.
    by rewrite (suspended_before_not_final _ _ Hpt').
  - unfold awaiting_heap. by apply (resume_throw_rethrow Promise _ n e).
Qed.

Lemma WorldTask_await_throwing_callee_terminates_witness :
  resume Promise 3
    (fst (main_task (spawn_task (co_yield 1 (throw "boom"%string))
                       (fun world_task =>
                          co_await WorldTask_CalleeAwaiter world_task co_return))))
    (snd (main_task (spawn_task (co_yield 1 (throw "boom"%string))
                       (fun world_task =>
                          co_await WorldTask_CalleeAwaiter world_task co_return))))
  = Terminated.
Proof.
  apply (WorldTask_await_throwing_callee_terminates [1%Z] "boom"%string 0 0 co_return).
  - lia.
  - left. reflexivity.
Defined.

(** X5.  The loop of [WorldTask::CalleeAwaiter::await_suspend] asks
    [callee.done()] again after the awaiting coroutine has run.  When the
    awaiting coroutine, resumed from [main] and owner of the awaited task
    as [hello()] is, returns right after the await, its local [WorldTask]
    is destroyed and the callee's frame with it, and the loop's next
    [callee.done()] reads a destroyed frame: the behaviour is undefined.
    [hello()] escapes this because it suspends in [co_yield val1] while
    [world_task] is alive. *)
Theorem WorldTask_await_then_return_dangles (vs : list Z) (r : Z) (fuel : nat)
    (a : nat) (k : Z -> body) (v : Z)
    (pta : resume_point) (va : option Z) (xa : option exn)
    (m : gmap nat frame) (n : nat) :
  a ≠ n ->
  m !! n = None ->
  suspended_before
    (spawn_task (yields vs r)
       (fun world_task => co_await WorldTask_CalleeAwaiter world_task k)) pta ->
  k r = co_return v ->
  resume Promise (length vs + 3 + fuel) (frame_at a)
    (Heap (<[a := Frame pta va xa noop_coroutine []]> m) n)
  = Undefined.
Proof.
  intros Hne Hfresh Hpta Hk.
  replace (length vs + 3 + fuel) with (S (length vs + S (S fuel))) by lia.
  rewrite (resume_spawn_await_WorldTask _ a (yields vs r) k) by done.
  replace (length vs + S (S fuel)) with (S (S (length vs + fuel))) at 1 by lia.
  destruct (drive_yields (S (length vs + fuel)) a n
              (Frame (at_co_await WorldTask_CalleeAwaiter (frame_at n) k) va xa
                 noop_coroutine ([] ++ [frame_at n]))
              None m (S n) (co_return r) vs (S (S fuel))
              (at_initial_suspend (yields vs r)) None)
    as (ptc' & valc' & Hpt' & ->); [by left|].
  erewrite drive_step; cycle 1.
  - unfold awaiting_heap. rewrite handle_done_insert. fields.
    by rewrite (suspended_before_not_final _ _ Hpt').
  - rewrite (resume_return_to_awaiting _ a n k r) by done.
    etransitivity; [eapply resume_transfer|].
    + unfold awaiting_heap. fields. rewrite lookup_insert_ne by done. apply lookup_insert_eq.
    + rewrite resume_frame_after_await by done. rewrite Hk.
      unfold awaiting_heap. cbn [app].
      rewrite exec_co_return_one_local;
        [reflexivity|reflexivity|done|done|reflexivity|reflexivity|exact I].
    + cbn zeta. cbn [continuation_runnable]. apply resume_noop.
  - destruct fuel; cbn [drive handle_done]; fields;
      rewrite lookup_insert_ne by done; rewrite Hfresh; reflexivity.
Qed.

Lemma WorldTask_await_then_return_dangles_witness :
  resume Promise 5
    (fst (main_task (spawn_task world
                       (fun world_task =>
                          co_await WorldTask_CalleeAwaiter world_task co_return))))
    (snd (main_task (spawn_task world
                       (fun world_task =>
                          co_await WorldTask_CalleeAwaiter world_task co_return))))
  = Undefined.
Proof.
  apply (WorldTask_await_then_return_dangles [1; 2]%Z 42%Z 0 0 co_return 42%Z).
  - lia.
  - reflexivity.
  - left. reflexivity.
  - reflexivity.
Defined.

(** ** The base case of [factorial] *)

(** X6.  [factorial(n)] for [n <= 1], zero and the negative numbers
    included, is the base case [co_return 1]: one [resume()] completes the
    task with the value 1, and no frame besides the task's own is ever
    created. *)
Theorem factorial_of_nonpositive (n : Z) (fuel : nat) :
  (n <= 1)%Z ->
  resume Promise (S fuel) (fst (main_task (factorial n))) (snd (main_task (factorial n)))
  = Returned (Heap {[0 := Frame at_final_suspend (Some 1%Z) None noop_coroutine []]} 1).
Proof.
  intros Hn. unfold main_task, create, empty_heap, new_frame. fields.
  rewrite factorial_base by exact Hn.
  rewrite (resume_return_top_level Promise fuel 0 1); [|by left].
  by rewrite insert_empty.
Qed.

Lemma factorial_of_nonpositive_witness :
  resume Promise 1 (fst (main_task (factorial (-3)))) (snd (main_task (factorial (-3))))
  = Returned (Heap {[0 := Frame at_final_suspend (Some 1%Z) None noop_coroutine []]} 1).
Proof. apply (factorial_of_nonpositive (-3) 0). lia. Defined.

(** ** Chains of awaits through [Task<T>::Awaiter] *)

Lemma exec_spawn_await_Task_Awaiter (P : promise_type)
    (nested_resume : coroutine_handle -> heap -> outcome)
    (bound : nat) (a : nat) (callee : body) (k : Z -> body) (p : resume_point)
    (v0 : option Z) (x0 : option exn) (prev : coroutine_handle) (m : gmap nat frame)
    (n : nat) :
  a ≠ n ->
  exec P nested_resume bound a
    (spawn_task callee (fun t => co_await Task_Awaiter t k))
    (Heap (<[a := Frame p v0 x0 prev []]> m) n)
  = seg_transfer (frame_at n)
      (Heap (<[n := Frame (at_initial_suspend callee) None None (frame_at a) []]>
             (<[a := Frame (at_co_await Task_Awaiter (frame_at n) k) v0 x0 prev [frame_at n]]>
              m)) (S n)).
Proof.
  intros Hne. rewrite exec_spawn_task. fields. rewrite lookup_insert_eq.
  unfold create, new_frame. fields.
  unfold set_locals. rewrite update_frame_under by done. fields.
  rewrite exec_co_await. cbn [await_ready].
  unfold set_point. rewrite update_frame_under by done. fields.
  unfold await_suspend, CalleeAwaiter_await_suspend. fields.
  rewrite lookup_insert_eq. cbn [mbind option_bind].
  unfold set_previous. rewrite update_frame_top. reflexivity.
Qed.

(** An exception leaves the body of frame [a], whose promise stores it;
    the frame owns no [Task]. *)
Lemma unhandled_store_no_locals (P : promise_type) (a : nat) (e : exn) (p : resume_point)
    (v0 : option Z) (x0 : option exn) (prev : coroutine_handle) (m : gmap nat frame)
    (n : nat) :
  final_suspend_awaiter P = PreviousAwaiter ->
  unhandled_exception P = store_exception ->
  valid_handle (Heap (<[a := Frame p v0 x0 prev []]> m) n) prev ->
  unhandled P a e (Heap (<[a := Frame p v0 x0 prev []]> m) n)
  = let st' := Heap (<[a := Frame at_final_suspend v0 (Some e) prev []]> m) n in
    seg_transfer (if continuation_runnable st' prev then prev else noop_coroutine) st'.
Proof.
  intros HP HE Hv. unfold unhandled.
  erewrite destroy_locals_nil; [|apply lookup_insert_eq|reflexivity].
  rewrite HE. unfold set_locals, set_exception. rewrite !update_frame_top. fields.
  erewrite final_suspend_PreviousAwaiter; [|exact HP|apply lookup_insert_eq|].
  - unfold set_point. rewrite update_frame_top. reflexivity.
  - fields. eapply valid_handle_insert, Hv.
Qed.

(** The same in the frame [a] whose one [Task] local holds the complete
    frame [c]. *)
Lemma unhandled_store_one_local (P : promise_type) (a c : nat) (e : exn) (p : resume_point)
    (v0 : option Z) (x0 : option exn) (prev : coroutine_handle) (fc : frame)
    (m : gmap nat frame) (n : nat) :
  final_suspend_awaiter P = PreviousAwaiter ->
  unhandled_exception P = store_exception ->
  a ≠ c ->
  m !! c = None ->
  point fc = at_final_suspend ->
  locals fc = [] ->
  valid_handle (Heap (<[a := Frame p v0 x0 prev [frame_at c]]> m) n) prev ->
  unhandled P a e (Heap (<[c := fc]> (<[a := Frame p v0 x0 prev [frame_at c]]> m)) n)
  = let st' := Heap (<[a := Frame at_final_suspend v0 (Some e) prev []]> m) n in
    seg_transfer (if continuation_runnable st' prev then prev else noop_coroutine) st'.
Proof.
  intros HP HE Hne Hm Hp Hn Hv. unfold unhandled, destroy_locals. fields.
  rewrite lookup_insert_ne, lookup_insert_eq by done. cbn [mbind option_bind]. fields.
  unfold set_locals. rewrite update_frame_under by done. fields.
  cbn [destroy_tasks foldr mbind option_bind Task_dtor handle_destroy handle_bool].
  rewrite coroutine_destroy_complete; [|done|done|by rewrite lookup_insert_ne].
  rewrite HE. unfold set_exception. rewrite update_frame_top. fields.
  erewrite final_suspend_PreviousAwaiter; [|exact HP|apply lookup_insert_eq|].
  - unfold set_point. rewrite update_frame_top. reflexivity.
  - fields. eapply valid_handle_insert, Hv.
Qed.

(** The innermost body runs in frame [a], which owns no [Task]. *)
Lemma exec_leaf_of (nested_resume : coroutine_handle -> heap -> outcome) (bound : nat)
    (res : Z + exn) (a : nat) (p : resume_point) (v0 : option Z) (x0 : option exn)
    (prev : coroutine_handle) (m : gmap nat frame) (n : nat) :
  valid_handle (Heap (<[a := Frame p v0 x0 prev []]> m) n) prev ->
  exec Promise_T nested_resume bound a (leaf_of res) (Heap (<[a := Frame p v0 x0 prev []]> m) n)
  = let st' := Heap (<[a := Frame at_final_suspend (value_after res v0)
                             (exception_after res x0) prev []]> m) n in
    seg_transfer (if continuation_runnable st' prev then prev else noop_coroutine) st'.
Proof.
  intros Hv. destruct res as [v|e]; cbn [leaf_of value_after exception_after].
  - by apply exec_co_return_no_locals.
  - rewrite exec_throw. by apply unhandled_store_no_locals.
Qed.

(** Frame [a] is resumed in [co_return co_await t] after the frame [c] of
    [t] ended with [res]: [await_resume] gives the value or raises the
    stored exception, and [a] ends in the same way. *)
Lemma resume_frame_after_Task_Awaiter (nested_resume : coroutine_handle -> heap -> outcome)
    (bound : nat) (res : Z + exn) (a c : nat) (v0 : option Z) (x0 : option exn)
    (prev prevc : coroutine_handle) (m : gmap nat frame) (n : nat) :
  a ≠ c ->
  m !! c = None ->
  valid_handle (Heap (<[a := Frame running v0 x0 prev [frame_at c]]> m) n) prev ->
  let fa := Frame (at_co_await Task_Awaiter (frame_at c) co_return) v0 x0 prev [frame_at c] in
  resume_frame Promise_T nested_resume bound a fa
    (Heap (<[c := Frame at_final_suspend (value_after res None) (exception_after res None)
                    prevc []]> (<[a := fa]> m)) n)
  = let st' := Heap (<[a := Frame at_final_suspend (value_after res v0)
                             (exception_after res x0) prev []]> m) n in
    seg_transfer (if continuation_runnable st' prev then prev else noop_coroutine) st'.
Proof.
  intros Hne Hm Hv fa. subst fa. unfold resume_frame. fields.
  unfold set_point. rewrite update_frame_under by done. fields.
  unfold await_resume, Task_Awaiter_await_resume, Promise_result. fields.
  rewrite lookup_insert_eq. fields.
  destruct res as [v|e]; cbn [value_after exception_after].
  - by apply exec_co_return_one_local.
  - by apply unhandled_store_one_local.
Qed.

(** One [resume()] of the outermost frame of a chain runs the chain down to
    the innermost body and back up: every frame created on the way is
    released, and the outermost frame ends as the innermost body did. *)
Lemma await_chain_run (res : Z + exn) (depth : nat) :
  ∀ (m : gmap nat frame) (nx a : nat) (v0 : option Z) (x0 : option exn)
    (prev : coroutine_handle) (fuel : nat),
    a < nx ->
    (∀ i, is_Some (m !! i) -> i < nx) ->
    valid_handle
      (Heap (<[a := Frame (at_initial_suspend (await_chain depth (leaf_of res))) v0 x0 prev []]>
               m) nx) prev ->
    resume Promise_T (2 * depth + 1 + fuel) (frame_at a)
      (Heap (<[a := Frame (at_initial_suspend (await_chain depth (leaf_of res))) v0 x0 prev []]>
               m) nx)
    = let st' := Heap (<[a := Frame at_final_suspend (value_after res v0)
                               (exception_after res x0) prev []]> m) (nx + depth) in
      resume Promise_T fuel (if continuation_runnable st' prev then prev else noop_coroutine)
        st'.
Proof.
  induction depth as [|d IH]; intros m nx a v0 x0 prev fuel Ha Hfresh Hv.
  - change (2 * 0 + 1 + fuel) with (S fuel). cbn [await_chain].
    erewrite resume_transfer; [|apply lookup_insert_eq|].
    2:{ unfold resume_frame. fields. unfold set_point. rewrite update_frame_top. fields.
        apply exec_leaf_of. eapply valid_handle_insert, Hv. }
    rewrite Nat.add_0_r. reflexivity.
  - assert (Hc : m !! nx = None).
    { destruct (m !! nx) eqn:E; [|done]. assert (nx < nx) by (apply Hfresh; by eexists). lia. }
    replace (2 * S d + 1 + fuel) with (S (2 * d + 1 + S fuel)) by lia.
    cbn [await_chain].
    erewrite resume_transfer; [|apply lookup_insert_eq|].
    2:{ unfold resume_frame. fields. unfold set_point. rewrite update_frame_top. fields.
        apply exec_spawn_await_Task_Awaiter. lia. }
    rewrite IH.
    + cbn zeta. unfold continuation_runnable at 1. fields.
      rewrite lookup_insert_ne, lookup_insert_eq by lia. fields. cbn [is_final negb].
      erewrite resume_transfer;
        [|fields; rewrite lookup_insert_ne by lia; apply lookup_insert_eq|].
      2:{ apply resume_frame_after_Task_Awaiter; [lia|done|].
          eapply valid_handle_insert, Hv. }
      cbn zeta. replace (S nx + d) with (nx + S d) by lia. reflexivity.
    + lia.
    + intros i. rewrite lookup_insert. case_decide; [lia|]. intros Hi.
      assert (i < nx) by (apply Hfresh, Hi). lia.
    + unfold valid_handle. fields. rewrite lookup_insert_ne, lookup_insert_eq by lia.
      by eexists.
Qed.

(** X7.  Values and errors travel up a chain of awaits of any depth.  In
    a chain of [depth] coroutines over [Promise<T>], each awaiting the
    next through [Task<T>::Awaiter] and returning what the await gives, one
    [resume()] at the top runs down to the innermost body and back: the
    call returns, of the [depth + 1] frames created only the outermost is
    left (the others were released by [~Task()]), it is complete, and
    [result()] on its promise gives the value that the innermost body
    returned, or raises the exception that it threw:
    [unhandled_exception] stores the exception at each level and
    [await_resume] raises it again one level up. *)
Theorem Task_Awaiter_chain (res : Z + exn) (depth fuel : nat) :
  let task := fst (main_task (await_chain depth (leaf_of res))) in
  ∃ st fr,
    resume Promise_T (2 * depth + 1 + fuel) task
      (snd (main_task (await_chain depth (leaf_of res)))) = Returned st ∧
    frames st = {[0 := fr]} ∧
    next_address st = S depth ∧
    Task_done st task = true ∧
    Promise_result fr = match res with
                        | inl v => normal (Some v)
                        | inr e => throws e
                        end.
Proof.
  intros task. unfold task, main_task, create, empty_heap, new_frame. fields.
  eexists (Heap _ _), _. split; [|split; [|split; [|split]]].
  - rewrite await_chain_run.
    + cbn zeta. cbn [continuation_runnable]. rewrite resume_noop.
      rewrite insert_empty. reflexivity.
    + lia.
    + intros i [x Hx]. by rewrite lookup_empty in Hx.
    + exact I.
  - reflexivity.
  - fields. lia.
  - unfold Task_done, handle_done. fields. by rewrite lookup_singleton_eq.
  - destruct res; reflexivity.
Qed.

Lemma Task_Awaiter_chain_witness :
  ∃ st fr,
    resume Promise_T 5
      (fst (main_task (await_chain 2 (throw "boom"%string))))
      (snd (main_task (await_chain 2 (throw "boom"%string)))) = Returned st ∧
    frames st = {[0 := fr]} ∧
    Promise_result fr = throws "boom"%string.
Proof.
  destruct (Task_Awaiter_chain (inr "boom"%string) 2 0) as (st & fr & H1 & H2 & _ & _ & H5).
  exists st, fr. split; [exact H1|]. split; [exact H2|exact H5].
Defined.

(** ** Frames stay consistent *)

Lemma heap_consistent_update_active (a : nat) (f : frame -> frame) (st : heap) :
  (∀ fr, is_final (point fr) = false ->
         is_final (point (f fr)) = false ∧ exception (f fr) = exception fr) ->
  heap_consistent st -> not_final a st ->
  heap_consistent (update_frame a f st) ∧ not_final a (update_frame a f st).
Proof.
  intros Hf Hc Hn. split.
  - intros b fr. destruct (decide (a = b)) as [<-|Hne].
    + rewrite lookup_update_frame_eq. destruct (frames st !! a) as [fr0|] eqn:E; [|done].
      intros [= <-]. destruct (Hf fr0 (Hn fr0 E)) as [H1 H2].
      destruct (Hc a fr0 E) as [C1 _]. split.
      * rewrite H2. intros Hx. specialize (C1 Hx). rewrite (Hn fr0 E) in C1. done.
      * rewrite H1. done.
    + rewrite lookup_update_frame_ne by done. apply Hc.
  - intros fr. rewrite lookup_update_frame_eq.
    destruct (frames st !! a) as [fr0|] eqn:E; [|done].
    intros [= <-]. apply Hf, (Hn fr0 E).
Qed.

Lemma heap_consistent_update_same (a c : nat) (f : frame -> frame) (st : heap) :
  (∀ fr, point (f fr) = point fr ∧ _value (f fr) = _value fr ∧
         exception (f fr) = exception fr) ->
  heap_consistent st -> heap_consistent (update_frame c f st).
Proof.
  intros Hf Hc b fr. destruct (decide (c = b)) as [<-|Hne].
  - rewrite lookup_update_frame_eq. destruct (frames st !! c) as [fr0|] eqn:E; [|done].
    intros [= <-]. destruct (Hf fr0) as (H1 & H2 & H3). destruct (Hc c fr0 E) as [C1 C2].
    unfold frame_consistent, result_ready. rewrite H1, H2, H3. done.
  - rewrite lookup_update_frame_ne by done. apply Hc.
Qed.

(** Destroying frames takes frames away and changes none. *)
Lemma destroy_tasks_subseteq (destroy : nat -> heap -> option heap) (l : list coroutine_handle) :
  (∀ a st st', destroy a st = Some st' -> frames st' ⊆ frames st) ->
  ∀ st st', destroy_tasks destroy l st = Some st' -> frames st' ⊆ frames st.
Proof.
  intros Hd. induction l as [|h l IH]; intros st st'; cbn [destroy_tasks foldr].
  - by intros [= <-].
  - fold (destroy_tasks destroy l st).
    destruct (destroy_tasks destroy l st) as [st1|] eqn:E; [|done].
    cbn [mbind option_bind]. intros Ht.
    transitivity (frames st1); [|by apply IH].
    unfold Task_dtor in Ht. destruct (handle_bool h).
    + destruct h as [| |c]; cbn [handle_destroy] in Ht; [done|by injection Ht as <-|].
      by apply (Hd c).
    + by injection Ht as <-.
Qed.

Lemma destroy_frame_subseteq (depth : nat) :
  ∀ a st st', destroy_frame depth a st = Some st' -> frames st' ⊆ frames st.
Proof.
  induction depth as [|depth IH]; intros a st st'; cbn [destroy_frame]; [done|].
  destruct (frames st !! a) as [fr|]; [|done]. cbn [mbind option_bind].
  assert (Hgo : (st1 ← destroy_tasks (destroy_frame depth) (locals fr) st;
                 Some (Heap (delete a (frames st1)) (next_address st1))) = Some st' ->
                frames st' ⊆ frames st).
  { destruct (destroy_tasks _ _ _) as [st1|] eqn:E; [|done]. cbn [mbind option_bind].
    intros [= <-]. cbn [frames].
    transitivity (frames st1); [apply delete_subseteq|].
    by apply (destroy_tasks_subseteq (destroy_frame depth) (locals fr) IH). }
  destruct (point fr); try exact Hgo. done.
Qed.

Lemma destroy_locals_subseteq (a : nat) (st st' : heap) :
  destroy_locals a st = Some st' -> frames st' ⊆ frames (set_locals a [] st).
Proof.
  unfold destroy_locals. destruct (frames st !! a) as [fr|]; [|done].
  cbn [mbind option_bind].
  apply destroy_tasks_subseteq. intros c s s'. apply destroy_frame_subseteq.
Qed.

Lemma heap_consistent_subseteq (st st' : heap) :
  frames st' ⊆ frames st -> heap_consistent st -> heap_consistent st'.
Proof. intros Hs Hc a fr Hl. apply (Hc a). by eapply lookup_weaken. Qed.

(** The locals of the executing frame [a] go out of scope. *)
Lemma destroy_locals_consistent (a : nat) (st st' : heap) :
  destroy_locals a st = Some st' ->
  heap_consistent st -> not_final a st ->
  heap_consistent st' ∧ not_final a st' ∧
  (∀ fr', frames st' !! a = Some fr' ->
          ∃ fr, frames st !! a = Some fr ∧ _value fr' = _value fr ∧
                exception fr' = exception fr).
Proof.
  intros Hd Hc Hn. apply destroy_locals_subseteq in Hd.
  destruct (heap_consistent_update_active a
              (fun fr => Frame (point fr) (_value fr) (exception fr) (previous fr) [])
              st) as [H1 H2]; [done|done|done|].
  fold (set_locals a [] st) in H1, H2.
  split; [by eapply heap_consistent_subseteq|]. split.
  - intros fr Hl. apply H2. by eapply lookup_weaken.
  - intros fr' Hl. eapply lookup_weaken in Hl; [|exact Hd].
    unfold set_locals in Hl. rewrite lookup_update_frame_eq in Hl.
    destruct (frames st !! a) as [fr|]; [|done]. injection Hl as <-. by exists fr.
Qed.

(** The frame [a] reaches its final suspend point with something for
    [result()]. *)
Lemma final_suspend_consistent (P : promise_type) (a : nat) (st : heap) :
  (∀ b fr, b ≠ a -> frames st !! b = Some fr -> frame_consistent fr) ->
  (∀ fr, frames st !! a = Some fr -> result_ready fr) ->
  segment_consistent (final_suspend P a st).
Proof.
  intros Ho Ha.
  assert (Hc : heap_consistent (set_point a at_final_suspend st)).
  { intros b fr. unfold set_point. destruct (decide (a = b)) as [<-|Hne].
    - rewrite lookup_update_frame_eq. destruct (frames st !! a) as [fr0|] eqn:E; [|done].
      intros [= <-]. split; [intros _; reflexivity|]. intros _.
      exact (Ha fr0 eq_refl).
    - rewrite lookup_update_frame_ne by done. by apply Ho. }
  unfold final_suspend. destruct (final_suspend_awaiter P); [exact Hc|].
  cbv zeta. destruct (frames (set_point a at_final_suspend st) !! a) as [fr|]; [|exact I].
  destruct (PreviousAwaiter_await_suspend _ _) as [[msg h]|]; [exact Hc|exact I].
Qed.

Section Consistency.
Variable P : promise_type.
Hypothesis P_stores : unhandled_exception P = store_exception.

Lemma unhandled_consistent (a : nat) (e : exn) (st : heap) :
  heap_consistent st -> not_final a st ->
  segment_consistent (unhandled P a e st).
Proof using P_stores.
  intros Hc Hn. unfold unhandled.
  destruct (destroy_locals a st) as [st1|] eqn:E; [|exact I].
  destruct (destroy_locals_consistent a st st1 E Hc Hn) as (H1 & H2 & _).
  rewrite P_stores. apply final_suspend_consistent.
  - intros b fr Hne. unfold set_exception. rewrite lookup_update_frame_ne by done. apply H1.
  - intros fr. unfold set_exception. rewrite lookup_update_frame_eq.
    destruct (frames st1 !! a) as [fr0|]; [|done]. intros [= <-]. right. by eexists.
Qed.

Section Nested.
Variable nested_resume : coroutine_handle -> heap -> outcome.
Hypothesis nested_consistent :
  ∀ h st, heap_consistent st -> outcome_consistent (nested_resume h st).

Lemma drive_consistent (bound : nat) (callee : coroutine_handle) (st : heap) :
  heap_consistent st -> outcome_consistent (drive nested_resume bound callee st).
Proof using nested_consistent.
  revert st. induction bound as [|bound IH]; intros st Hc; cbn [drive].
  - destruct (handle_done st callee) as [[|]|]; try exact I. exact Hc.
  - destruct (handle_done st callee) as [[|]|]; try exact I; [exact Hc|].
    pose proof (nested_consistent callee st Hc) as Hq.
    destruct (nested_resume callee st); try exact I. by apply IH.
Qed.

Lemma await_suspend_consistent (bound : nat) (aw : awaiter_kind)
    (callee caller : coroutine_handle) (st : heap) :
  heap_consistent st ->
  segment_consistent (await_suspend nested_resume bound aw callee caller st).
Proof using nested_consistent.
  intros Hc.
  assert (Hp : ∀ c, heap_consistent (set_previous c caller st)).
  { intros c. by apply (heap_consistent_update_same c). }
  assert (HC : segment_consistent
                 match CalleeAwaiter_await_suspend callee caller st with
                 | Some (h, st') => seg_transfer h st'
                 | None => seg_undefined
                 end).
  { unfold CalleeAwaiter_await_suspend. destruct callee as [| |c]; try exact I.
    destruct (frames st !! c); [|exact I]. apply Hp. }
  destruct aw; try exact HC.
  unfold await_suspend, WorldTask_CalleeAwaiter_await_suspend.
  destruct callee as [| |c]; try exact I.
  destruct (frames st !! c); [|exact I].
  pose proof (drive_consistent bound (frame_at c) (set_previous c caller st) (Hp c)) as Hq.
  destruct (drive _ _ _ _); try exact I. exact Hq.
Qed.

Lemma exec_consistent (bound : nat) (a : nat) (b : body) (st : heap) :
  heap_consistent st -> not_final a st ->
  segment_consistent (exec P nested_resume bound a b st).
Proof using P_stores nested_consistent.
  revert st. induction b as [v|v k IH|e|callee IHc k IH|aw task k IH]; intros st Hc Hn.
  - rewrite exec_co_return.
    destruct (heap_consistent_update_active a
                (fun fr => Frame (point fr) (Some v) (exception fr) (previous fr) (locals fr))
                st) as [H1 H2]; [done|done|done|].
    fold (set_value a (Some v) st) in H1, H2. fold (Promise_return_value a v st) in H1, H2.
    destruct (destroy_locals _ _) as [st1|] eqn:E; [|exact I].
    destruct (destroy_locals_consistent _ _ _ E H1 H2) as (D1 & D2 & D3).
    apply final_suspend_consistent.
    + intros c fr _. apply D1.
    + intros fr Hl. destruct (D3 fr Hl) as (fr0 & L0 & V & _).
      unfold Promise_return_value, set_value in L0. rewrite lookup_update_frame_eq in L0.
      destruct (frames st !! a) as [fr1|]; [|done]. injection L0 as <-.
      left. rewrite V. by eexists.
  - rewrite exec_co_yield.
    destruct (heap_consistent_update_active a
                (fun fr => Frame (point fr) (Some v) (exception fr) (previous fr) (locals fr))
                st) as [H1 H2]; [done|done|done|].
    fold (set_value a (Some v) st) in H1, H2. fold (Promise_yield_value a v st) in H1, H2.
    destruct (heap_consistent_update_active a
                (fun fr => Frame (at_co_yield k) (_value fr) (exception fr) (previous fr)
                             (locals fr))
                (Promise_yield_value a v st)) as [H3 _]; [done|done|done|].
    fold (set_point a (at_co_yield k) (Promise_yield_value a v st)) in H3.
    destruct (yield_value_awaiter P); [exact H3|].
    destruct (RepeatAwaiter_await_suspend _ _) as [[msg h]|]; [exact H3|exact I].
  - rewrite exec_throw. by apply unhandled_consistent.
  - rewrite exec_spawn_task. destruct (frames st !! a) as [fr|] eqn:E; [|exact I].
    set (st1 := snd (create callee st)).
    assert (C1 : heap_consistent st1 ∧ not_final a st1).
    { unfold st1, create. fields. split.
      - intros c frc. cbn [frames]. rewrite lookup_insert. case_decide.
        + intros [= <-]. split; [by intros [? ?]|done].
        + apply Hc.
      - intros frc. cbn [frames]. rewrite lookup_insert. case_decide.
        + by intros [= <-].
        + apply Hn. }
    destruct C1 as [C1 C2].
    destruct (heap_consistent_update_active a
                (fun fr0 => Frame (point fr0) (_value fr0) (exception fr0) (previous fr0)
                              (locals fr ++ [fst (create callee st)]))
                st1) as [H1 H2]; [done|done|done|].
    by apply IH.
  - rewrite exec_co_await. destruct (await_ready aw st task) as [[|]|]; try exact I.
    + destruct (await_resume aw st task);
        [by apply IH|by apply unhandled_consistent|exact I].
    + apply await_suspend_consistent.
      by apply (heap_consistent_update_active a
                  (fun fr => Frame (at_co_await aw task k) (_value fr) (exception fr)
                               (previous fr) (locals fr))).
Qed.

Lemma resume_frame_consistent (bound : nat) (a : nat) (fr : frame) (st : heap) :
  frames st !! a = Some fr ->
  heap_consistent st ->
  segment_consistent (resume_frame P nested_resume bound a fr st).
Proof using P_stores nested_consistent.
  intros Hl Hc. unfold resume_frame.
  assert (Hgo : is_final (point fr) = false ->
                heap_consistent (set_point a running st) ∧ not_final a (set_point a running st)).
  { intros Hnf. split.
    - intros b frb. unfold set_point. destruct (decide (a = b)) as [<-|Hne].
      + rewrite lookup_update_frame_eq, Hl. intros [= <-]. split; [|done].
        cbn [exception point]. intros Hx. destruct (Hc a fr Hl) as [C1 _].
        specialize (C1 Hx). by rewrite Hnf in C1.
      + rewrite lookup_update_frame_ne by done. apply Hc.
    - intros frb. unfold set_point. rewrite lookup_update_frame_eq, Hl. by intros [= <-]. }
  destruct (point fr) as [b|k|aw callee k| |]; try exact I.
  - destruct Hgo as [H1 H2]; [done|]. by apply exec_consistent.
  - destruct Hgo as [H1 H2]; [done|]. by apply exec_consistent.
  - destruct Hgo as [H1 H2]; [done|].
    destruct (await_resume _ _ _);
      [by apply exec_consistent|by apply unhandled_consistent|exact I].
Qed.
End Nested.

Lemma resume_consistent (fuel : nat) (h : coroutine_handle) (st : heap) :
  heap_consistent st -> outcome_consistent (resume P fuel h st).
Proof using P_stores.
  revert h st. induction fuel as [|fuel IH]; intros h st Hc.
  - destruct h; try exact I. exact Hc.
  - destruct h as [| |a]; try exact I; [exact Hc|].
    cbn [resume]. destruct (frames st !! a) as [fr|] eqn:E; [|exact I].
    pose proof (resume_frame_consistent (resume P fuel) IH fuel a fr st E Hc) as Hq.
    destruct (resume_frame _ _ _ _ _ _); try exact I; try exact Hq.
    by apply IH.
Qed.
End Consistency.

Lemma create_consistent (b : body) (st : heap) :
  heap_consistent st -> heap_consistent (snd (create b st)).
Proof.
  intros Hc a fr. unfold create. fields. rewrite lookup_insert. case_decide.
  - intros [= <-]. split; [by intros [? ?]|done].
  - apply Hc.
Qed.

(** X8.  With a promise type whose [unhandled_exception] stores the
    exception ([Promise<T>] of the loop program), [resume()] keeps the
    frames consistent: a frame holds an exception only when it is
    complete, and a complete frame holds a value or an exception.  So,
    after any [resume()] that returns, started from a consistent heap
    (the heap of [main] before any [resume()] is one, and creating a
    coroutine keeps consistency): [result()] on a frame that is not
    complete does not throw and gives the frame's [std::optional];
    [Task<T>::Awaiter::await_resume] on a complete frame never
    dereferences an empty [std::optional]. *)
Theorem stored_exception_invariant (P : promise_type) (fuel : nat) (h : coroutine_handle)
    (st st' : heap) :
  unhandled_exception P = store_exception ->
  heap_consistent st ->
  resume P fuel h st = Returned st' ->
  heap_consistent st' ∧
  (∀ b, heap_consistent (snd (create b st'))) ∧
  (∀ c fr, frames st' !! c = Some fr ->
     (is_final (point fr) = false -> Promise_result fr = normal (_value fr)) ∧
     (is_final (point fr) = true ->
      Task_Awaiter_await_resume st' (frame_at c) ≠ undefined_behaviour)).
Proof.
  intros HP Hc Hr.
  pose proof (resume_consistent P HP fuel h st Hc) as Hq. rewrite Hr in Hq.
  cbn [outcome_consistent] in Hq.
  split; [exact Hq|]. split; [intros b; by apply create_consistent|].
  intros c fr Hl. destruct (Hq c fr Hl) as [C1 C2]. split.
  - intros Hnf. unfold Promise_result. destruct (exception fr) as [e|] eqn:E; [|done].
    assert (Hf : is_final (point fr) = true) by (apply C1; by eexists).
    by rewrite Hnf in Hf.
  - intros Hf. unfold Task_Awaiter_await_resume. rewrite Hl. unfold Promise_result.
    destruct (exception fr) as [e|] eqn:E; [done|].
    destruct (C2 Hf) as [[v Hv]|[e He]].
    + by rewrite Hv.
    + by rewrite E in He.
Qed.

Lemma stored_exception_invariant_witness :
  ∃ st', resume Promise_T 4 (fst (main_task (awaits_thrower "boom"%string)))
           (snd (main_task (awaits_thrower "boom"%string))) = Returned st' ∧
         heap_consistent st'.
Proof.
  assert (Hc : heap_consistent (snd (main_task (awaits_thrower "boom"%string)))).
  { apply create_consistent. intros a fr Hl. unfold empty_heap in Hl. fields.
    cbn [frames] in Hl. by rewrite lookup_empty in Hl. }
  eexists. split; [vm_compute; reflexivity|].
  refine (proj1 (stored_exception_invariant Promise_T 4
                   (fst (main_task (awaits_thrower "boom"%string)))
                   (snd (main_task (awaits_thrower "boom"%string))) _ eq_refl Hc _)).
  vm_compute. reflexivity.
Defined.

(** ** Registrations on the [Loop] *)

(** [add_timer] reads and writes [timers] only. *)
Lemma add_timers_timers (regs : list (Z * coroutine_handle)) :
  ∀ l l' : Loop,
    timers l = timers l' -> timers (add_timers regs l) = timers (add_timers regs l').
Proof.
  induction regs as [|[t h] regs IH]; intros l l' E; [exact E|].
  change (add_timers ((t, h) :: regs) l) with (add_timers regs (add_timer t h l)).
  change (add_timers ((t, h) :: regs) l') with (add_timers regs (add_timer t h l')).
  apply IH. cbn [add_timer timers]. by rewrite E.
Qed.

Lemma register_all_spec (rs : list registration) :
  ∀ l : Loop,
    ready_tasks (register_all rs l) = ready_tasks l ++ registered_tasks rs ∧
    timers (register_all rs l) = timers (add_timers (registered_timers rs) l).
Proof.
  induction rs as [|r rs IH]; intros l.
  - split; [by rewrite app_nil_r|reflexivity].
  - change (register_all (r :: rs) l) with (register_all rs (register l r)).
    destruct (IH (register l r)) as [I1 I2]. rewrite I1, I2.
    destruct r as [h|time h].
    + split; [cbn; by rewrite <- app_assoc|].
      change (registered_timers (register_task h :: rs)) with (registered_timers rs).
      by apply add_timers_timers.
    + split; reflexivity.
Qed.

Lemma heap_upto_nil : heap_upto expire_time ([] : list TimerEntry) 0.
Proof. intros i Hi. lia. Qed.

(** X9.  [add_task] and [add_timer] do not disturb each other.  After
    any sequence of calls of the two on a new [Loop], [ready_tasks] holds
    the handles given to [add_task] in the order of the calls, [timers]
    holds exactly the entries given to [add_timer], and [timers.top()] is
    an entry with the least expiry time. *)
Theorem Loop_registrations (rs : list registration) :
  let l := register_all rs Loop_default in
  ready_tasks l = registered_tasks rs ∧
  timers l ≡ₚ entries (registered_timers rs) ∧
  (∀ e, e ∈ timers l ->
        (expire_time (priority_queue_top (timers l)) <= expire_time e)%Z).
Proof.
  intros l. destruct (register_all_spec rs Loop_default) as [H1 H2]. fold l in H1, H2.
  destruct (add_timers_spec (registered_timers rs) Loop_default heap_upto_nil) as [A1 A2].
  rewrite <- H2 in A1, A2.
  split; [exact H1|]. split; [exact A2|].
  intros e He. apply list_elem_of_lookup_total in He as (i & Hi & <-).
  by apply (heap_root_least expire_time (timers l) (length (timers l))).
Qed.

Lemma Loop_registrations_witness :
  ready_tasks (register_all [register_timer 2 (frame_at 0); register_task (frame_at 2);
                             register_timer 1 (frame_at 1)] Loop_default)
  = [frame_at 2] ∧
  (expire_time
     (priority_queue_top
        (timers (register_all [register_timer 2 (frame_at 0); register_task (frame_at 2);
                               register_timer 1 (frame_at 1)] Loop_default)))
   <= 2)%Z.
Proof.
  destruct (Loop_registrations [register_timer 2 (frame_at 0); register_task (frame_at 2);
                                register_timer 1 (frame_at 1)]) as (H1 & _ & H3).
  split; [exact H1|].
  apply (H3 {| expire_time := 2; handle := frame_at 0 |}).
  apply list_elem_of_further, list_elem_of_here.
Defined.

Lemma timer_steps_spec (steps : list timer_step) :
  ∀ (l l' : Loop) (fired fired' : list TimerEntry),
    heap_upto expire_time (timers l) (length (timers l)) ->
    timer_steps steps l fired = Some (l', fired') ->
    heap_upto expire_time (timers l') (length (timers l')) ∧
    fired' ++ timers l' ≡ₚ fired ++ timers l ++ added steps ∧
    ready_tasks l' = ready_tasks l.
Proof.
  induction steps as [|[time h|] steps IH]; intros l l' fired fired' Hheap Hrun.
  - injection Hrun as <- <-. split; [exact Hheap|]. split; [|reflexivity].
    cbn. by rewrite app_nil_r.
  - cbn [timer_steps] in Hrun.
    destruct (priority_queue_push_spec expire_time greater greater_expire_time
                {| expire_time := time; handle := h |} (timers l) Hheap) as (P1 & P2).
    destruct (IH (add_timer time h l) l' fired fired' P1 Hrun) as (I1 & I2 & I3).
    split; [exact I1|]. split; [|exact I3].
    rewrite I2. cbn [add_timer timers added omap list_omap]. rewrite P2.
    apply Permutation_app_head. rewrite <- app_comm_cons. apply Permutation_middle.
  - cbn [timer_steps] in Hrun.
    destruct (timers l) as [|e c] eqn:E; [done|]. rewrite <- E in *.
    destruct (priority_queue_pop_spec expire_time greater greater_expire_time (timers l))
      as (P1 & P2); [by rewrite E|exact Hheap|].
    destruct (IH {| ready_tasks := ready_tasks l;
                    timers := priority_queue_pop greater (timers l) |}
                l' _ fired' P1 Hrun) as (I1 & I2 & I3).
    split; [exact I1|]. split; [|exact I3].
    rewrite I2. cbn [timers added omap list_omap]. rewrite <- !app_assoc.
    apply Permutation_app_head. cbn [app]. rewrite app_comm_cons.
    apply Permutation_app_tail. by symmetry.
Qed.

(** X10.  Timers can be added while others are taken out.  After any
    sequence of [add_timer] calls and of [top()]/[pop()] steps on a new
    [Loop], none of which reads an empty queue, the entries taken out
    together with those still queued are exactly the entries added,
    [timers.top()] has the least expiry time of the entries still queued,
    and [ready_tasks] is still empty. *)
Theorem timers_interleaved (steps : list timer_step) (l' : Loop) (fired' : list TimerEntry) :
  timer_steps steps Loop_default [] = Some (l', fired') ->
  fired' ++ timers l' ≡ₚ added steps ∧
  (∀ e, e ∈ timers l' ->
        (expire_time (priority_queue_top (timers l')) <= expire_time e)%Z) ∧
  ready_tasks l' = [].
Proof.
  intros Hrun.
  destruct (timer_steps_spec steps Loop_default l' [] fired' heap_upto_nil Hrun)
    as (H1 & H2 & H3).
  split; [exact H2|]. split; [|exact H3].
  intros e He. apply list_elem_of_lookup_total in He as (i & Hi & <-).
  by apply (heap_root_least expire_time (timers l') (length (timers l'))).
Qed.

Lemma timers_interleaved_witness :
  ∃ l' fired',
    timer_steps [step_add 2 (frame_at 0); step_add 1 (frame_at 1); step_pop;
                 step_add 0 (frame_at 2)] Loop_default [] = Some (l', fired') ∧
    fired' = [{| expire_time := 1; handle := frame_at 1 |}] ∧
    priority_queue_top (timers l') = {| expire_time := 0; handle := frame_at 2 |} ∧
    fired' ++ timers l'
    ≡ₚ added [step_add 2 (frame_at 0); step_add 1 (frame_at 1); step_pop;
              step_add 0 (frame_at 2)].
Proof.
  eexists _, _. split; [reflexivity|]. split; [reflexivity|]. split; [reflexivity|].
  apply (timers_interleaved [step_add 2 (frame_at 0); step_add 1 (frame_at 1); step_pop;
                             step_add 0 (frame_at 2)]).
  reflexivity.
Defined.

(** ** Sequences of operations on [Task] objects *)

(** [~Task()] on a handle held by the object [i] succeeds and leaves the
    frames of the other objects alone. *)
Lemma Task_dtor_owned (tasks : gmap nat coroutine_handle) (st : heap) (i : nat)
    (h : coroutine_handle) :
  owns tasks st ->
  tasks !! i = Some h ->
  ∃ st', Task_dtor coroutine_destroy h st = Some st' ∧
         frames st' ⊆ frames st ∧
         (∀ j a, j ≠ i -> tasks !! j = Some (frame_at a) -> frames st' !! a = frames st !! a).
Proof.
  intros Ho Hi. destruct h as [| |a0].
  - exists st. split; [reflexivity|]. split; done.
  - exists st. split; [reflexivity|]. split; done.
  - destruct (Ho i a0 Hi) as [(fr & Hl & Hp) Hu].
    exists (Heap (delete a0 (frames st)) (next_address st)). split; [|split].
    + cbn [Task_dtor handle_bool handle_destroy]. by apply (coroutine_destroy_plain a0 fr).
    + apply delete_subseteq.
    + intros j a Hne Hj. cbn [frames]. apply lookup_delete_ne.
      intros <-. apply Hne. by apply Hu.
Qed.

(** The frame of [other] passes to [this]. *)
Lemma owns_move (this other : nat) (h : coroutine_handle) (tasks : gmap nat coroutine_handle)
    (st st' : heap) :
  owns tasks st ->
  this ≠ other ->
  tasks !! other = Some h ->
  (∀ j a, j ≠ this -> tasks !! j = Some (frame_at a) -> frames st' !! a = frames st !! a) ->
  owns (<[other := nullptr]> (<[this := h]> tasks)) st'.
Proof.
  intros Ho Hne Hother Hkeep i a Hi.
  assert (Hlook : ∀ j, (<[other := nullptr]> (<[this := h]> tasks)) !! j = Some (frame_at a) ->
                       j ≠ other ∧ ((j = this ∧ h = frame_at a) ∨
                                    (j ≠ this ∧ tasks !! j = Some (frame_at a)))).
  { intros j. rewrite lookup_insert. case_decide as E1; [done|].
    rewrite lookup_insert. case_decide as E2.
    - intros [= ->]. split; [done|]. left. done.
    - intros Hj. split; [done|]. right. done. }
  assert (Hsrc : ∀ j, j ≠ other ->
                      (j = this ∧ h = frame_at a) ∨ (j ≠ this ∧ tasks !! j = Some (frame_at a)) ->
                      ∃ j0, j0 ≠ this ∧ tasks !! j0 = Some (frame_at a) ∧
                            (j = this -> j0 = other) ∧ (j ≠ this -> j0 = j)).
  { intros j Hj [[-> ->]|[Hjt Hj']].
    - exists other. split; [done|]. split; [done|]. split; done.
    - exists j. split; [done|]. split; [done|]. split; done. }
  destruct (Hlook i Hi) as [Hio Hcase].
  destruct (Hsrc i Hio Hcase) as (i0 & Hi0 & Hti0 & Hi1 & Hi2).
  destruct (Ho i0 a Hti0) as [(fr & Hl & Hp) Hu]. split.
  - exists fr. split; [|exact Hp]. by rewrite (Hkeep i0 a Hi0 Hti0).
  - intros j Hj. destruct (Hlook j Hj) as [Hjo Hjcase].
    destruct (Hsrc j Hjo Hjcase) as (j0 & Hj0 & Htj0 & Hj1 & Hj2).
    assert (E : j0 = i0) by by apply Hu.
    destruct (decide (j = this)) as [->|Hjt], (decide (i = this)) as [->|Hit]; [done| | |].
    + specialize (Hj1 eq_refl). specialize (Hi2 Hit). congruence.
    + specialize (Hi1 eq_refl). specialize (Hj2 Hjt). congruence.
    + specialize (Hi2 Hit). specialize (Hj2 Hjt). congruence.
Qed.

(** The object [this] is gone. *)
Lemma owns_delete (this : nat) (tasks : gmap nat coroutine_handle) (st st' : heap) :
  owns tasks st ->
  (∀ j a, j ≠ this -> tasks !! j = Some (frame_at a) -> frames st' !! a = frames st !! a) ->
  owns (delete this tasks) st'.
Proof.
  intros Ho Hkeep i a Hi.
  apply lookup_delete_Some in Hi as [Hne Hi].
  destruct (Ho i a Hi) as [(fr & Hl & Hp) Hu]. split.
  - exists fr. split; [|exact Hp]. by rewrite (Hkeep i a).
  - intros j Hj. apply lookup_delete_Some in Hj as [_ Hj]. by apply Hu.
Qed.

(** One operation on [Task] objects that own their frames succeeds, keeps
    the ownership, and creates no object holding a frame that was not held
    before. *)
Lemma Task_apply_owns (op : Task_operation) (tasks : gmap nat coroutine_handle) (st : heap) :
  owns tasks st ->
  in_scope op (dom tasks) ->
  ∃ tasks' st',
    Task_apply op tasks st = Some (tasks', st') ∧
    owns tasks' st' ∧
    dom tasks' = objects_after op (dom tasks) ∧
    frames st' ⊆ frames st.
Proof.
  intros Ho Hs. destruct op as [this other|this other|this]; cbn [in_scope] in Hs.
  - destruct Hs as [Hthis Hother].
    apply not_elem_of_dom in Hthis. apply elem_of_dom in Hother as [h Hother].
    assert (Hne : this ≠ other) by (intros ->; congruence).
    exists (<[other := nullptr]> (<[this := h]> tasks)), st.
    split; [|split; [|split]].
    + cbn [Task_apply]. unfold Task_move_constructor. rewrite Hother. reflexivity.
    + by apply (owns_move this other h tasks st st).
    + cbn [objects_after]. rewrite !dom_insert_L.
      assert (Hd : other ∈ dom tasks) by (apply elem_of_dom; by eexists).
      apply set_eq. intros x. rewrite !elem_of_union, !elem_of_singleton.
      split; [intros [->|H]; [by right|exact H]|intros H; by right].
    + done.
  - destruct Hs as [Hthis Hother].
    apply elem_of_dom in Hthis as [old Hthis]. apply elem_of_dom in Hother as [h Hother].
    destruct (decide (this = other)) as [->|Hne].
    + exists tasks, st. split; [|split; [|split]]; try done.
      cbn [Task_apply]. unfold Task_move_assignment. rewrite decide_False; [done|].
      intros H. by apply H.
    + destruct (Task_dtor_owned tasks st this old Ho Hthis) as (st' & Hd & Hsub & Hkeep).
      exists (<[other := nullptr]> (<[this := h]> tasks)), st'.
      split; [|split; [|split]].
      * cbn [Task_apply]. unfold Task_move_assignment. rewrite decide_True by done.
        rewrite Hthis, Hother. cbn [mbind option_bind]. rewrite Hd. reflexivity.
      * by apply (owns_move this other h tasks st st').
      * cbn [objects_after]. rewrite !dom_insert_L.
        assert (Hd1 : other ∈ dom tasks) by (apply elem_of_dom; by eexists).
        assert (Hd2 : this ∈ dom tasks) by (apply elem_of_dom; by eexists).
        apply set_eq. intros x. rewrite !elem_of_union, !elem_of_singleton.
        split; [intros [->|[->|H]]; done|intros H; right; by right].
      * exact Hsub.
  - apply elem_of_dom in Hs as [old Hthis].
    destruct (Task_dtor_owned tasks st this old Ho Hthis) as (st' & Hd & Hsub & Hkeep).
    exists (delete this tasks), st'. split; [|split; [|split]].
    + cbn [Task_apply]. unfold Task_destructor. rewrite Hthis. cbn [mbind option_bind].
      rewrite Hd. reflexivity.
    + by apply (owns_delete this tasks st st').
    + cbn [objects_after]. by rewrite dom_delete_L.
    + exact Hsub.
Qed.

(** X11.  Ownership survives any sequence of operations on [Task]
    objects.  When every frame held by a [Task] is live, suspended, owns
    no [Task] itself and is held by no other [Task], then any sequence of
    move constructions, move assignments (self-assignment included) and
    destructions that names objects as the language allows runs to its
    end, so that no [destroy()] is ever called on a released frame; it
    keeps that ownership, and it creates no frame. *)
Theorem Task_ownership_kept (ops : list Task_operation) :
  ∀ (tasks : gmap nat coroutine_handle) (st : heap),
    owns tasks st ->
    well_scoped ops (dom tasks) ->
    ∃ tasks' st',
      Task_run ops tasks st = Some (tasks', st') ∧
      owns tasks' st' ∧
      frames st' ⊆ frames st.
Proof.
  induction ops as [|op ops IH]; intros tasks st Ho Hs.
  - exists tasks, st. split; [reflexivity|]. split; done.
  - destruct Hs as [Hs1 Hs2].
    destruct (Task_apply_owns op tasks st Ho Hs1) as (tasks1 & st1 & H1 & H2 & H3 & H4).
    rewrite <- H3 in Hs2.
    destruct (IH tasks1 st1 H2 Hs2) as (tasks' & st' & I1 & I2 & I3).
    exists tasks', st'. split; [|split].
    + cbn [Task_run]. by rewrite H1.
    + exact I2.
    + by transitivity (frames st1).
Qed.

Lemma Task_ownership_kept_witness :
  ∃ tasks' st',
    Task_run [move_construct 1 0; move_assign 0 1; move_assign 0 0; end_of_lifetime 1;
              end_of_lifetime 0] one_task (snd (main_task work)) = Some (tasks', st') ∧
    owns tasks' st'.
Proof.
  assert (Ho : owns one_task (snd (main_task work))).
  { unfold one_task. intros i a Hi. apply lookup_singleton_Some in Hi as [<- [= <-]]. split.
    - exists (new_frame work). split; [reflexivity|]. split; [discriminate|reflexivity].
    - intros j Hj. by apply lookup_singleton_Some in Hj as [<- _]. }
  assert (Hs : well_scoped [move_construct 1 0; move_assign 0 1; move_assign 0 0;
                            end_of_lifetime 1; end_of_lifetime 0] (dom one_task)).
  { unfold one_task. rewrite dom_singleton_L.
    cbn [well_scoped in_scope objects_after]. set_solver. }
  destruct (Task_ownership_kept _ one_task (snd (main_task work)) Ho Hs)
    as (tasks' & st' & H1 & H2 & _).
  exists tasks', st'. split; [exact H1|exact H2].
Defined.
